(** * freqtrade/arguments.py: the argument manager

    A shallow embedding of [freqtrade/arguments.py]: the [--timerange]
    mini-language ([Arguments.parse_timerange]), the option-value converter
    [Arguments.check_int_positive], and the facade around [argparse]
    ([Arguments.parse_args], [Arguments.get_parsed_arg]).

    Python [str] values are modelled by [string]: sequences of code points
    below 256.  On that range the regular-expression class [\d] is exactly
    ['0'..'9'].  Python integers are [Z].  A call that may raise returns a
    [result]. *)

From Stdlib Require Import ZArith Ascii String Lia.
From Stdlib Require Import Decimal DecimalString DecimalPos DecimalZ.
From stdpp Require Import gmap strings list.

(** ** Exceptions *)

Inductive exn : Type :=
| Exception (msg : string)
| ValueError
| IndexError
| ArgumentTypeError (msg : string)
| ArgumentError (msg : string)
| SystemExit.

Inductive result (A : Type) : Type :=
| Ok (a : A)
| Raise (e : exn).
Arguments Ok {A} a.
Arguments Raise {A} e.

#[global] Instance result_ret : MRet result := @Ok.
#[global] Instance result_bind : MBind result := λ A B k r,
  match r with
  | Ok a => k a
  | Raise e => Raise e
  end.

(** [try: r except ValueError: h] *)
Definition except_ValueError {A : Type} (r : result A) (h : result A) : result A :=
  match r with
  | Raise ValueError => h
  | _ => r
  end.

(** ** Strings *)

Definition dquote : string := String (ascii_of_nat 34) EmptyString.

Definition isdigit (c : ascii) : bool :=
  let n := N_of_ascii c in ((48 <=? n) && (n <=? 57))%N.

Definition digit_value (c : ascii) : Z := Z.of_N (N_of_ascii c) - 48.

Fixpoint all_digits (s : string) : bool :=
  match s with
  | EmptyString => true
  | String c s' => isdigit c && all_digits s'
  end.

(** [s[:n]] and [s[n:]] *)
Fixpoint str_take (n : nat) (s : string) : string :=
  match n, s with
  | S n', String c s' => String c (str_take n' s')
  | _, _ => EmptyString
  end.

Fixpoint str_drop (n : nat) (s : string) : string :=
  match n, s with
  | S n', String _ s' => str_drop n' s'
  | _, _ => s
  end.

(** Length of the longest prefix of [s] made of digits. *)
Fixpoint digit_run (s : string) : nat :=
  match s with
  | String c s' => if isdigit c then S (digit_run s') else 0
  | EmptyString => 0
  end.

(** Value of a string of decimal digits, most significant first. *)
Fixpoint digits_value_from (acc : Z) (s : string) : Z :=
  match s with
  | EmptyString => acc
  | String c s' => digits_value_from (10 * acc + digit_value c) s'
  end.

Definition digits_value (s : string) : Z := digits_value_from 0 s.

(** ** The built-in [int(str)]

    CPython maps the non-ASCII white space of the string to a blank, skips
    blanks on both sides ([Py_ISSPACE]: tab, line feed, vertical tab, form
    feed, carriage return, space), reads an optional sign and then decimal
    digits, where a single underscore may stand between two digits.  Below
    256 the non-ASCII white space is U+0085 and U+00A0.  Anything else is a
    [ValueError].  CPython also bounds the length of a decimal literal: with
    the default [sys.int_max_str_digits] a literal of more than 4300 digit
    characters (leading zeros count, the sign and the underscores do not) is
    a [ValueError] as well. *)

Definition int_isspace (c : ascii) : bool :=
  let n := N_of_ascii c in
  (((9 <=? n) && (n <=? 13)) || (n =? 32) || (n =? 133) || (n =? 160))%N.

Fixpoint lstrip (s : string) : string :=
  match s with
  | String c s' => if int_isspace c then lstrip s' else s
  | EmptyString => EmptyString
  end.

Fixpoint rstrip (s : string) : string :=
  match s with
  | EmptyString => EmptyString
  | String c s' =>
      match rstrip s' with
      | EmptyString => if int_isspace c then EmptyString else String c EmptyString
      | r => String c r
      end
  end.

Fixpoint int_literal (need_digit : bool) (acc : Z) (s : string) : option Z :=
  match s with
  | EmptyString => if need_digit then None else Some acc
  | String c s' =>
      if isdigit c then int_literal false (10 * acc + digit_value c) s'
      else if Ascii.eqb c "_" && negb need_digit then int_literal true acc s'
      else None
  end.

Definition int_signed (s : string) : option Z :=
  match s with
  | String "-" s' => Z.opp <$> int_literal true 0 s'
  | String "+" s' => int_literal true 0 s'
  | _ => int_literal true 0 s
  end.

Definition int_max_str_digits : nat := 4300.

Fixpoint digit_count (s : string) : nat :=
  match s with
  | EmptyString => 0
  | String c s' => (if isdigit c then 1 else 0) + digit_count s'
  end.

Definition int (s : string) : result Z :=
  let literal := rstrip (lstrip s) in
  match int_signed literal with
  | Some n =>
      if int_max_str_digits <? digit_count literal then Raise ValueError
      else Ok n
  | None => Raise ValueError
  end.

(** What [int] gives on a run of digits: its value, unless the run is
    longer than the limit. *)
Definition read_digits (s : string) : result Z :=
  if int_max_str_digits <? String.length s then Raise ValueError
  else Ok (digits_value s).

(** The text of [n] copies of the character [c]. *)
Fixpoint repeat_char (n : nat) (c : ascii) : string :=
  match n with
  | O => EmptyString
  | S n' => String c (repeat_char n' c)
  end.

(** ** Regular expressions: [re.match]

    The patterns of the module use [^], [$], a literal character, [\d{n}],
    [\d+] and capturing groups that are not nested.  A pattern is the list
    of its tokens.  Repetition is greedy and backtracks; [$] matches at the
    end of the text and before a line feed that ends the text. *)

Inductive token : Type :=
| Bol
| Eol
| Chr (c : ascii)
| Digits (lo : nat) (hi : option nat)
| Open
| Close.

Definition regex : Type := list token.

(** [\d{n}] and [\d+] *)
Definition d_ (n : nat) : token := Digits n (Some n).
Definition d_plus : token := Digits 1 None.

Definition at_end (s : string) : bool :=
  match s with
  | EmptyString => true
  | String c EmptyString => Ascii.eqb c "010"
  | _ => false
  end.

(** Greedy choice of a repetition count between [lo] and [n], longest first. *)
Fixpoint backtrack {A : Type} (lo n : nat) (k : nat → option A) : option A :=
  if n <? lo then None
  else match k n with
       | Some r => Some r
       | None => match n with
                 | O => None
                 | S n' => backtrack lo n' k
                 end
       end.

Fixpoint exec (p : regex) (pos : nat) (s : string)
    (marks groups : list string) : option (list string) :=
  match p with
  | [] => Some groups
  | Bol :: p' => if pos =? 0 then exec p' pos s marks groups else None
  | Eol :: p' => if at_end s then exec p' pos s marks groups else None
  | Chr c :: p' =>
      match s with
      | String c' s' =>
          if Ascii.eqb c c' then exec p' (S pos) s' marks groups else None
      | EmptyString => None
      end
  | Digits lo hi :: p' =>
      let avail := digit_run s in
      let n := match hi with Some h => h `min` avail | None => avail end in
      backtrack lo n (λ k, exec p' (pos + k) (str_drop k s) marks groups)
  | Open :: p' => exec p' pos s (s :: marks) groups
  | Close :: p' =>
      match marks with
      | m :: marks' =>
          exec p' pos s marks'
            (groups ++ [str_take (String.length m - String.length s) m])
      | [] => None
      end
  end.

(** [re.match(rex, text)]; the result is [match.groups()]. *)
Definition re_match (rex : regex) (text : string) : option (list string) :=
  exec rex 0 text [] [].

(** ** Calendar dates: [arrow.get(s, 'YYYYMMDD').timestamp] *)

Definition is_leap (y : Z) : bool :=
  ((y mod 4 =? 0) && (negb (y mod 100 =? 0) || (y mod 400 =? 0)))%Z.

Definition days_in_month (y m : Z) : Z :=
  (if m =? 2 then (if is_leap y then 29 else 28)
   else if (m =? 4) || (m =? 6) || (m =? 9) || (m =? 11) then 30
   else 31)%Z.

Definition days_before_year (y : Z) : Z :=
  (let y1 := y - 1 in y1 * 365 + y1 / 4 - y1 / 100 + y1 / 400)%Z.

Fixpoint days_before_month_from (y : Z) (m : nat) : Z :=
  match m with
  | O => 0
  | S m' => days_before_month_from y m' + days_in_month y (Z.of_nat m)
  end.

(** Days of year [y] before the first of month [m]. *)
Definition days_before_month (y m : Z) : Z :=
  days_before_month_from y (Z.to_nat (m - 1)).

(** Proleptic Gregorian ordinal: 0001-01-01 is day 1. *)
Definition ymd2ord (y m d : Z) : Z :=
  (days_before_year y + days_before_month y m + d)%Z.

Definition valid_date (y m d : Z) : bool :=
  ((1 <=? y) && (y <=? 9999) && (1 <=? m) && (m <=? 12)
   && (1 <=? d) && (d <=? days_in_month y m))%Z.

(** Modelled from the spec: [arrow.get(s, 'YYYYMMDD').timestamp] is a call
    into the [arrow] library, whose code is not part of the sources.  The
    digits are read as YYYYMMDD and converted to epoch seconds at the start
    of that UTC day; a string that names no calendar day raises
    [ValueError]. *)
Definition arrow_get_YYYYMMDD_timestamp (s : string) : result Z :=
  let y := digits_value (str_take 4 s) in
  let m := digits_value (str_take 2 (str_drop 4 s)) in
  let d := digits_value (str_take 2 (str_drop 6 s)) in
  if all_digits s && (String.length s =? 8) && valid_date y m d
  then Ok ((ymd2ord y m d - ymd2ord 1970 1 1) * 86400)%Z
  else Raise ValueError.

(** ** [TimeRange] and [Arguments.parse_timerange] *)

Record TimeRange : Type := mkTimeRange {
  starttype : option string;
  stoptype : option string;
  startts : Z;
  stopts : Z
}.

Definition syntax : list (regex * (option string * option string)) :=
  [ ([Bol; Chr "-"; Open; d_ 8; Close; Eol], (None, Some "date"));
    ([Bol; Open; d_ 8; Close; Chr "-"; Eol], (Some "date", None));
    ([Bol; Open; d_ 8; Close; Chr "-"; Open; d_ 8; Close; Eol],
     (Some "date", Some "date"));
    ([Bol; Chr "-"; Open; d_ 10; Close; Eol], (None, Some "date"));
    ([Bol; Open; d_ 10; Close; Chr "-"; Eol], (Some "date", None));
    ([Bol; Open; d_ 10; Close; Chr "-"; Open; d_ 10; Close; Eol],
     (Some "date", Some "date"));
    ([Bol; Open; Chr "-"; d_plus; Close; Eol], (None, Some "line"));
    ([Bol; Open; d_plus; Close; Chr "-"; Eol], (Some "line", None));
    ([Bol; Open; d_plus; Close; Chr "-"; Open; d_plus; Close; Eol],
     (Some "index", Some "index")) ].

(** Truth value of [stype[i]]: [None] and the empty string are false. *)
Definition truthy (o : option string) : bool :=
  match o with
  | Some (String _ _) => true
  | _ => false
  end.

(** [rvals[index]] *)
Definition getitem (rvals : list string) (index : nat) : result string :=
  match rvals !! index with
  | Some v => Ok v
  | None => Raise IndexError
  end.

(** The body of [if match:], for the groups [rvals] of the matching rule. *)
Definition timerange_of_groups (stype : option string * option string)
    (rvals : list string) : result TimeRange :=
  let index := 0 in
  '(start, index) ←
    (if truthy stype.1 then
       starts ← getitem rvals index;
       start ← (if bool_decide (stype.1 = Some "date") && (String.length starts =? 8)
                then arrow_get_YYYYMMDD_timestamp starts
                else int starts);
       mret (start, index + 1)
     else mret (0%Z, index));
  stop ←
    (if truthy stype.2 then
       stops ← getitem rvals index;
       if bool_decide (stype.2 = Some "date") && (String.length stops =? 8)
       then arrow_get_YYYYMMDD_timestamp stops
       else int stops
     else mret 0%Z);
  mret (mkTimeRange stype.1 stype.2 start stop).

Definition incorrect_syntax (text : string) : exn :=
  Exception ("Incorrect syntax for timerange " +:+ dquote +:+ text +:+ dquote).

(** The loop [for rex, stype in syntax] and the [raise] after it. *)
Fixpoint parse_timerange_rules
    (rules : list (regex * (option string * option string)))
    (text : string) : result TimeRange :=
  match rules with
  | [] => Raise (incorrect_syntax text)
  | (rex, stype) :: rules' =>
      match re_match rex text with
      | Some rvals => timerange_of_groups stype rvals
      | None => parse_timerange_rules rules' text
      end
  end.

Definition parse_timerange (text : option string) : result TimeRange :=
  match text with
  | None => Ok (mkTimeRange None None 0 0)
  | Some text => parse_timerange_rules syntax text
  end.

(** ** [Arguments.check_int_positive] *)

Definition invalid_positive (value : string) : exn :=
  ArgumentTypeError
    (value +:+ " is invalid for this parameter, should be a positive integer value").

Definition check_int_positive (value : string) : result Z :=
  uint ← except_ValueError
           (uint ← int value;
            if (uint <=? 0)%Z then Raise ValueError else mret uint)
           (Raise (invalid_positive value));
  mret uint.

(** ** Auxiliary notions for the properties *)

(** The first character of [s] is a digit. *)
Definition head_digit (s : string) : bool :=
  match s with
  | String c _ => isdigit c
  | EmptyString => false
  end.

(** The pattern [p] cannot continue on a digit: its first token that looks
    at the text is [$] or a literal character that is no digit. *)
Fixpoint no_digit_next (p : regex) : bool :=
  match p with
  | Eol :: _ => true
  | Chr c :: _ => negb (isdigit c)
  | Bol :: p' | Open :: p' | Close :: p' => no_digit_next p'
  | _ => false
  end.

(** [n] repetitions are allowed by [\d{lo,hi}]. *)
Definition fits (lo : nat) (hi : option nat) (n : nat) : bool :=
  (lo <=? n) && match hi with Some h => n <=? h | None => true end.

(** The line feed that may end a matched text. *)
Definition newline : string := String "010" EmptyString.

(** The grammar of the time-range language as a table, for a text [a-b]
    whose sides [a] and [b] are runs of digits (possibly empty). *)
Definition timerange_table (text a b : string) : result TimeRange :=
  let la := String.length a in
  let lb := String.length b in
  if la =? 0 then
    if lb =? 0 then Raise (incorrect_syntax text)
    else if lb =? 8 then
      stop ← arrow_get_YYYYMMDD_timestamp b;
      mret (mkTimeRange None (Some "date") 0 stop)
    else if lb =? 10 then
      stop ← read_digits b;
      mret (mkTimeRange None (Some "date") 0 stop)
    else
      stop ← read_digits b;
      mret (mkTimeRange None (Some "line") 0 (- stop))
  else if lb =? 0 then
    if la =? 8 then
      start ← arrow_get_YYYYMMDD_timestamp a;
      mret (mkTimeRange (Some "date") None start 0)
    else if la =? 10 then
      start ← read_digits a;
      mret (mkTimeRange (Some "date") None start 0)
    else
      start ← read_digits a;
      mret (mkTimeRange (Some "line") None start 0)
  else if (la =? 8) && (lb =? 8) then
    start ← arrow_get_YYYYMMDD_timestamp a;
    stop ← arrow_get_YYYYMMDD_timestamp b;
    mret (mkTimeRange (Some "date") (Some "date") start stop)
  else if (la =? 10) && (lb =? 10) then
    start ← read_digits a;
    stop ← read_digits b;
    mret (mkTimeRange (Some "date") (Some "date") start stop)
  else
    start ← read_digits a;
    stop ← read_digits b;
    mret (mkTimeRange (Some "index") (Some "index") start stop).

(** The first character of [s] is a dash. *)
Definition head_dash (s : string) : bool :=
  match s with
  | String c _ => Ascii.eqb "-" c
  | EmptyString => false
  end.

(** ** [argparse]: option schema

    The part of the [argparse] library that the module drives: a parser
    holds the options registered with [add_argument] and at most one group
    of subcommands; registering an option string twice is an
    [ArgumentError] (the default conflict handler).  Help texts and
    metavariables only feed the usage message and are left out. *)

#[warnings="-register-all"]
Inductive pyval : Type :=
| VNone
| VBool (b : bool)
| VInt (n : Z)
| VFloat (repr : string)
| VStr (s : string)
| VList (l : list pyval)
| VFunc (name : string).

Inductive action_kind : Type :=
| Store | StoreTrue | StoreFalse | Count | Append | Version | Help.

Inductive value_type : Type :=
| TDefault | TStr | TInt | TFloat | TCheckIntPositive.

Inductive nargs_spec : Type :=
| NDefault | NOptional | NOneOrMore.

Record Action : Type := mkAction {
  option_strings : list string;
  dest : string;
  kind : action_kind;
  default : pyval;
  type_ : value_type;
  nargs : nargs_spec;
  const : pyval;
  choices : list string
}.

Record SubParser : Type := mkSubParser {
  sub_name : string;
  sub_defaults : list (string * pyval);
  sub_actions : list Action
}.

Record ArgumentParser : Type := mkArgumentParser {
  description : string;
  actions : list Action;
  subparsers : option (string * list SubParser)
}.

(** Every parser starts with [-h/--help]. *)
Definition help_action : Action :=
  mkAction ["-h"; "--help"] "help" Help VNone TDefault NDefault VNone [].

(** [argparse.ArgumentParser(description=description)] *)
Definition ArgumentParser_new (description : string) : ArgumentParser :=
  mkArgumentParser description [help_action] None.

Definition registered_strings (acts : list Action) : list string :=
  acts ≫= option_strings.

Definition conflicts (acts : list Action) (spec : Action) : bool :=
  bool_decide (Exists (λ o, o ∈ registered_strings acts) (option_strings spec)).

Definition conflict_error (spec : Action) : exn :=
  ArgumentError "conflicting option string".

(** [parser.add_argument(...)] on a list of registered options. *)
Definition add_action (spec : Action) (acts : list Action) : result (list Action) :=
  if conflicts acts spec then Raise (conflict_error spec)
  else Ok (acts ++ [spec]).

(** ** [argparse]: parsing

    [parse_args] recognises, in the order of the argument list, the options
    and the subcommand that the arguments spell out; this step is the
    library's own and is a parameter ([recognise]).  The namespace starts
    from the defaults, and each recognised occurrence runs its action. *)

Abbreviation Namespace := (gmap string pyval).

Inductive occurrence : Type :=
| Opt (a : Action) (v : pyval)
| Sub (sp : SubParser).

(** What the module takes from outside its own file: the constants of
    [freqtrade.constants], the package version, and the recogniser of
    [argparse]. *)
Class Externals : Type := {
  DEFAULT_CONFIG : string;
  DYNAMIC_WHITELIST : Z;
  DEFAULT_HYPEROPT : string;
  HYPEROPT_EPOCH : Z;
  __version__ : string;
  recognise : ArgumentParser → list string → result (list occurrence)
}.

(** [setattr(namespace, d, v)] unless the attribute is there. *)
Definition set_default (ns : Namespace) (d : string) (v : pyval) : Namespace :=
  match ns !! d with
  | Some _ => ns
  | None => <[d := v]> ns
  end.

(** The defaults of the registered options; [help] and [version] have none. *)
Definition action_defaults (acts : list Action) (ns : Namespace) : Namespace :=
  foldl (λ ns a, match kind a with
                 | Help | Version => ns
                 | _ => set_default ns (dest a) (default a)
                 end) ns acts.

Definition apply_action (a : Action) (v : pyval) (ns : Namespace) : result Namespace :=
  match kind a with
  | Store => Ok (<[dest a := v]> ns)
  | StoreTrue => Ok (<[dest a := VBool true]> ns)
  | StoreFalse => Ok (<[dest a := VBool false]> ns)
  | Count =>
      match ns !! dest a with
      | Some (VInt n) => Ok (<[dest a := VInt (n + 1)]> ns)
      | Some VNone | None => Ok (<[dest a := VInt 1]> ns)
      | Some _ => Raise (Exception "TypeError")
      end
  | Append =>
      match ns !! dest a with
      | Some (VList items) => Ok (<[dest a := VList (items ++ [v])]> ns)
      | Some VNone | None => Ok (<[dest a := VList [v]]> ns)
      | Some _ => Raise (Exception "AttributeError")
      end
  | Version | Help => Raise SystemExit
  end.

(** The subcommand [sp] is chosen: its name is stored, then the defaults of
    its options and of [set_defaults] fill what is still missing. *)
Definition choose_subcommand (d : string) (sp : SubParser) (ns : Namespace) : Namespace :=
  let ns := <[d := VStr (sub_name sp)]> ns in
  let ns := action_defaults (sub_actions sp) ns in
  foldl (λ ns kv, set_default ns kv.1 kv.2) ns (sub_defaults sp).

Definition run_occurrence (p : ArgumentParser) (ns : Namespace) (o : occurrence)
    : result Namespace :=
  match o with
  | Opt a v => apply_action a v ns
  | Sub sp =>
      match subparsers p with
      | Some (d, _) => Ok (choose_subcommand d sp ns)
      | None => Raise SystemExit
      end
  end.

Fixpoint run_occurrences (p : ArgumentParser) (ns : Namespace)
    (occs : list occurrence) : result Namespace :=
  match occs with
  | [] => Ok ns
  | o :: occs' => ns' ← run_occurrence p ns o; run_occurrences p ns' occs'
  end.

Definition initial_namespace (p : ArgumentParser) : Namespace :=
  let ns := action_defaults (actions p) ∅ in
  match subparsers p with
  | Some (d, _) => set_default ns d VNone
  | None => ns
  end.

(** [parser.parse_args(args)] *)
Definition ArgumentParser_parse_args `{!Externals}
    (p : ArgumentParser) (args : list string) : result Namespace :=
  occs ← recognise p args;
  run_occurrences p (initial_namespace p) occs.

(** ** The [Arguments] class

    A method is a function of the instance that returns its outcome and the
    instance as the call leaves it, also when it raises.  [trace] is a ghost
    field: it records each completed construction of the schema and each
    call of the underlying parser. *)

Inductive event : Type := SchemaBuilt | ParserCalled.

#[global] Instance event_eq_dec : EqDecision event.
Proof. solve_decision. Defined.

Record Arguments : Type := mkArguments {
  args : list string;
  parsed_arg : option Namespace;
  parser : ArgumentParser;
  trace : list event
}.

Definition method (A : Type) : Type := Arguments → result A * Arguments.

#[global] Instance method_ret : MRet method := λ A a self, (Ok a, self).
#[global] Instance method_bind : MBind method := λ A B k m self,
  match m self with
  | (Ok a, self') => k a self'
  | (Raise e, self') => (Raise e, self')
  end.

Definition lift {A : Type} (r : result A) : method A := λ self, (r, self).

Definition get_self : method Arguments := λ self, (Ok self, self).

Definition get_parser : method ArgumentParser := λ self, (Ok (parser self), self).

Definition set_parsed_arg (ns : Namespace) : method unit := λ self,
  (Ok (), mkArguments (args self) (Some ns) (parser self) (trace self)).

Definition set_parser (p : ArgumentParser) : method unit := λ self,
  (Ok (), mkArguments (args self) (parsed_arg self) p (trace self)).

Definition record (e : event) : method unit := λ self,
  (Ok (), mkArguments (args self) (parsed_arg self) (parser self) (trace self ++ [e])).

(** [Arguments(args, description)] *)
Definition Arguments_init (args : list string) (description : string) : Arguments :=
  mkArguments args None (ArgumentParser_new description) [].

(** [self.parser.add_argument(...)] *)
Definition parser_add_argument (spec : Action) : method unit :=
  p ← get_parser;
  acts ← lift (add_action spec (actions p));
  set_parser (mkArgumentParser (description p) acts (subparsers p)).

(** [self.parser.add_subparsers(dest=d)] *)
Definition parser_add_subparsers (d : string) : method unit :=
  p ← get_parser;
  match subparsers p with
  | Some _ => lift (Raise SystemExit)
  | None => set_parser (mkArgumentParser (description p) (actions p) (Some (d, [])))
  end.

(** [subparsers.add_parser(name)]: the new parser is registered at once. *)
Definition subparsers_add_parser (name : string) : method unit :=
  p ← get_parser;
  match subparsers p with
  | Some (d, subs) =>
      set_parser (mkArgumentParser (description p) (actions p)
                    (Some (d, subs ++ [mkSubParser name [] [help_action]])))
  | None => lift (Raise (Exception "AttributeError"))
  end.

(** An update of the subcommand parser registered under [name]. *)
Definition update_subparser (name : string)
    (f : SubParser → result SubParser) : method unit :=
  p ← get_parser;
  match subparsers p with
  | Some (d, subs) =>
      subs' ← lift (mapM (λ sp, if bool_decide (sub_name sp = name)
                                then f sp else Ok sp) subs);
      set_parser (mkArgumentParser (description p) (actions p) (Some (d, subs')))
  | None => lift (Raise (Exception "AttributeError"))
  end.

(** [cmd.add_argument(...)] on the subcommand parser registered as [name]. *)
Definition subparser_add_argument (name : string) (spec : Action) : method unit :=
  update_subparser name (λ sp,
    acts ← add_action spec (sub_actions sp);
    mret (mkSubParser (sub_name sp) (sub_defaults sp) acts)).

(** [cmd.set_defaults(key=v)] *)
Definition subparser_set_defaults (name key : string) (v : pyval) : method unit :=
  update_subparser name (λ sp,
    mret (mkSubParser (sub_name sp) (sub_defaults sp ++ [(key, v)]) (sub_actions sp))).

Section facade.
Context `{!Externals}.

Definition common_args_parser : method unit :=
  parser_add_argument
    (mkAction ["-v"; "--verbose"] "loglevel" Count (VInt 0) TDefault NDefault VNone []);;
  parser_add_argument
    (mkAction ["--logfile"] "logfile" Store VNone TStr NDefault VNone []);;
  parser_add_argument
    (mkAction ["--version"] "version" Version VNone TDefault NDefault
       (VStr ("%(prog)s " +:+ __version__)) []);;
  parser_add_argument
    (mkAction ["-c"; "--config"] "config" Append VNone TStr NDefault VNone []);;
  parser_add_argument
    (mkAction ["-d"; "--datadir"] "datadir" Store VNone TStr NDefault VNone []);;
  parser_add_argument
    (mkAction ["-s"; "--strategy"] "strategy" Store (VStr "DefaultStrategy")
       TStr NDefault VNone []);;
  parser_add_argument
    (mkAction ["--strategy-path"] "strategy_path" Store VNone TStr NDefault VNone []);;
  parser_add_argument
    (mkAction ["--dynamic-whitelist"] "dynamic_whitelist" Store VNone TInt
       NOptional (VInt DYNAMIC_WHITELIST) []);;
  parser_add_argument
    (mkAction ["--db-url"] "db_url" Store VNone TStr NDefault VNone []);;
  parser_add_argument
    (mkAction ["--sd-notify"] "sd_notify" StoreTrue (VBool false) TDefault
       NDefault VNone []).

Definition optimizer_shared_options (parser : string) : method unit :=
  subparser_add_argument parser
    (mkAction ["-i"; "--ticker-interval"] "ticker_interval" Store VNone TStr
       NDefault VNone []);;
  subparser_add_argument parser
    (mkAction ["--timerange"] "timerange" Store VNone TStr NDefault VNone []);;
  subparser_add_argument parser
    (mkAction ["--max_open_trades"] "max_open_trades" Store VNone TInt
       NDefault VNone []);;
  subparser_add_argument parser
    (mkAction ["--stake_amount"] "stake_amount" Store VNone TFloat NDefault VNone []);;
  subparser_add_argument parser
    (mkAction ["-r"; "--refresh-pairs-cached"] "refresh_pairs" StoreTrue
       (VBool false) TDefault NDefault VNone []).

Definition backtesting_options (parser : string) : method unit :=
  subparser_add_argument parser
    (mkAction ["--eps"; "--enable-position-stacking"] "position_stacking"
       StoreTrue (VBool false) TDefault NDefault VNone []);;
  subparser_add_argument parser
    (mkAction ["--dmmp"; "--disable-max-market-positions"]
       "use_max_market_positions" StoreFalse (VBool true) TDefault NDefault VNone []);;
  subparser_add_argument parser
    (mkAction ["-l"; "--live"] "live" StoreTrue (VBool false) TDefault
       NDefault VNone []);;
  subparser_add_argument parser
    (mkAction ["--strategy-list"] "strategy_list" Store VNone TDefault
       NOneOrMore VNone []);;
  subparser_add_argument parser
    (mkAction ["--export"] "export" Store VNone TStr NDefault VNone []);;
  subparser_add_argument parser
    (mkAction ["--export-filename"] "exportfilename" Store
       (VStr "user_data/backtest_data/backtest-result.json") TStr NDefault VNone []).

Definition edge_options (parser : string) : method unit :=
  subparser_add_argument parser
    (mkAction ["--stoplosses"] "stoploss_range" Store VNone TStr NDefault VNone []).

Definition hyperopt_options (parser : string) : method unit :=
  subparser_add_argument parser
    (mkAction ["--customhyperopt"] "hyperopt" Store (VStr DEFAULT_HYPEROPT)
       TStr NDefault VNone []);;
  subparser_add_argument parser
    (mkAction ["--eps"; "--enable-position-stacking"] "position_stacking"
       StoreTrue (VBool false) TDefault NDefault VNone []);;
  subparser_add_argument parser
    (mkAction ["--dmmp"; "--disable-max-market-positions"]
       "use_max_market_positions" StoreFalse (VBool true) TDefault NDefault VNone []);;
  subparser_add_argument parser
    (mkAction ["-e"; "--epochs"] "epochs" Store (VInt HYPEROPT_EPOCH) TInt
       NDefault VNone []);;
  subparser_add_argument parser
    (mkAction ["-s"; "--spaces"] "spaces" Store (VStr "all") TDefault
       NOneOrMore VNone ["all"; "buy"; "sell"; "roi"; "stoploss"]);;
  subparser_add_argument parser
    (mkAction ["--print-all"] "print_all" StoreTrue (VBool false) TDefault
       NDefault VNone []);;
  subparser_add_argument parser
    (mkAction ["-j"; "--job-workers"] "hyperopt_jobs" Store (VInt (-1)) TInt
       NDefault VNone []);;
  subparser_add_argument parser
    (mkAction ["--random-state"] "hyperopt_random_state" Store VNone
       TCheckIntPositive NDefault VNone []).

Definition _build_subcommands : method unit :=
  parser_add_subparsers "subparser";;
  (* Add backtesting subcommand *)
  subparsers_add_parser "backtesting";;
  subparser_set_defaults "backtesting" "func" (VFunc "backtesting.start");;
  optimizer_shared_options "backtesting";;
  backtesting_options "backtesting";;
  (* Add edge subcommand *)
  subparsers_add_parser "edge";;
  subparser_set_defaults "edge" "func" (VFunc "edge_cli.start");;
  optimizer_shared_options "edge";;
  edge_options "edge";;
  (* Add hyperopt subcommand *)
  subparsers_add_parser "hyperopt";;
  subparser_set_defaults "hyperopt" "func" (VFunc "hyperopt.start");;
  optimizer_shared_options "hyperopt";;
  hyperopt_options "hyperopt".

Definition _load_args : method unit :=
  common_args_parser;;
  _build_subcommands;;
  record SchemaBuilt.

Definition parse_args : method Namespace :=
  self ← get_self;
  record ParserCalled;;
  parsed_arg ← lift (ArgumentParser_parse_args (parser self) (args self));
  (* Workaround issue in argparse with action='append' and default value *)
  match parsed_arg !! "config" with
  | Some VNone => mret (<["config" := VList [VStr DEFAULT_CONFIG]]> parsed_arg)
  | Some _ => mret parsed_arg
  | None => lift (Raise (Exception "AttributeError"))
  end.

Definition get_parsed_arg : method Namespace :=
  self ← get_self;
  match parsed_arg self with
  | None =>
      _load_args;;
      ns ← parse_args;
      set_parsed_arg ns;;
      mret ns
  | Some ns => mret ns
  end.
End facade.

(** ** A sample environment

    The values that [freqtrade.constants] gives the constants, and a
    recogniser for argument lists made only of [-c PATH] and
    [--config PATH] pairs; any other argument list is a usage error. *)

Fixpoint recognise_config_pairs (p : ArgumentParser) (args : list string)
    : result (list occurrence) :=
  match args with
  | [] => Ok []
  | flag :: value :: rest =>
      if bool_decide (flag ∈ ["-c"; "--config"]) then
        match find (λ a, bool_decide (flag ∈ option_strings a)) (actions p) with
        | Some a =>
            occs ← recognise_config_pairs p rest;
            mret (Opt a (VStr value) :: occs)
        | None => Raise SystemExit
        end
      else Raise SystemExit
  | _ => Raise SystemExit
  end.

Definition sample_externals : Externals := {|
  DEFAULT_CONFIG := "config.json";
  DYNAMIC_WHITELIST := 20;
  DEFAULT_HYPEROPT := "DefaultHyperOpts";
  HYPEROPT_EPOCH := 100;
  __version__ := "0.18.5";
  recognise := recognise_config_pairs
|}.

(** The (start, stop) pairs listed in the grammar table. *)
Definition grammar_pairs : list (option string * option string) :=
  snd <$> syntax.

(** The built-in [str(n)] of an integer: its decimal numeral. *)
Definition str (n : Z) : string := NilZero.string_of_int (Z.to_int n).

(** ** Auxiliary notions for the facade *)

#[global] Instance action_kind_eq_dec : EqDecision action_kind.
Proof. solve_decision. Defined.

(** All options of a parser: its own and those of its subcommands. *)
Definition all_actions (p : ArgumentParser) : list Action :=
  actions p ++
  match subparsers p with
  | Some (_, subs) => subs ≫= sub_actions
  | None => []
  end.

Definition registered_subparsers (p : ArgumentParser) : list SubParser :=
  match subparsers p with
  | Some (_, subs) => subs
  | None => []
  end.

(** An occurrence that [recognise] may report for the parser [p]: an option
    or a subcommand registered in [p]. *)
Definition valid_occurrence (p : ArgumentParser) (o : occurrence) : Prop :=
  match o with
  | Opt a _ => a ∈ all_actions p
  | Sub sp => sp ∈ registered_subparsers p
  end.

(** The occurrence prints a message and exits ([--help], [--version]). *)
Definition exits (o : occurrence) : Prop :=
  match o with
  | Opt a _ => kind a = Help ∨ kind a = Version
  | Sub _ => False
  end.

(** The values supplied to the options stored under [d], in the order of
    the occurrences. *)
Definition supplied (d : string) (occs : list occurrence) : list pyval :=
  omap (λ o, match o with
             | Opt a v => if bool_decide (dest a = d) then Some v else None
             | Sub _ => None
             end) occs.

(** The value that an [append] option holds after [vs] were supplied. *)
Definition append_value (vs : list pyval) : pyval :=
  match vs with
  | [] => VNone
  | _ => VList vs
  end.

(** [config] is the only appended attribute and [loglevel] the only counted
    one. *)
Definition dest_discipline (a : Action) : bool :=
  bool_decide (dest a = "config" ↔ kind a = Append)
  && bool_decide (dest a = "loglevel" ↔ kind a = Count).

(** The namespace after the values [vs] were supplied to [config]. *)
Definition namespace_inv (vs : list pyval) (ns : Namespace) : Prop :=
  ns !! "config" = Some (append_value vs) ∧ ∃ n, ns !! "loglevel" = Some (VInt n).

Section loaded.
Context `{!Externals}.

(** The parser of an instance once [_load_args] has run. *)
Definition loaded_parser (description : string) : ArgumentParser :=
  parser (_load_args (Arguments_init [] description)).2.

(** The instance after [n] calls of [get_parsed_arg], whatever they return
    or raise. *)
Definition calls (n : nat) (self : Arguments) : Arguments :=
  Nat.iter n (λ s, (get_parsed_arg s).2) self.

(** What an instance can be after any number of calls: fresh, or loaded
    once and parsed once. *)
Definition reached (args : list string) (d : string) (self : Arguments) : Prop :=
  self = Arguments_init args d
  ∨ (parser self = loaded_parser d ∧ trace self = [SchemaBuilt; ParserCalled]).

End loaded.

(** The option [-c/--config] as [common_args_parser] registers it. *)
Definition config_action : Action :=
  mkAction ["-c"; "--config"] "config" Append VNone TStr NDefault VNone [].

(** ** The options of the scripts *)

(** A run of [self.parser.add_argument(...)] calls, one per option. *)
Fixpoint add_arguments (specs : list Action) : method unit :=
  match specs with
  | [] => mret ()
  | spec :: specs' => parser_add_argument spec;; add_arguments specs'
  end.

Definition scripts_specs : list Action :=
  [ mkAction ["-p"; "--pairs"] "pairs" Store VNone TDefault NDefault VNone [] ].

Definition scripts_options : method unit := add_arguments scripts_specs.

Definition testdata_dl_specs : list Action :=
  [ mkAction ["--pairs-file"] "pairs_file" Store VNone TDefault NDefault VNone [];
    mkAction ["--export"] "export" Store VNone TDefault NDefault VNone [];
    mkAction ["-c"; "--config"] "config" Append VNone TStr NDefault VNone [];
    mkAction ["--days"] "days" Store VNone TInt NDefault VNone [];
    mkAction ["--exchange"] "exchange" Store (VStr "bittrex") TStr NDefault VNone [];
    mkAction ["-t"; "--timeframes"] "timeframes" Store
      (VList [VStr "1m"; VStr "5m"]) TDefault NOneOrMore VNone
      ["1m"; "3m"; "5m"; "15m"; "30m"; "1h"; "2h"; "4h";
       "6h"; "8h"; "12h"; "1d"; "3d"; "1w"];
    mkAction ["--erase"] "erase" StoreTrue (VBool false) TDefault NDefault VNone [] ].

Definition testdata_dl_options : method unit := add_arguments testdata_dl_specs.

(** ** Auxiliary notions for the further properties *)

(** Every character of [s] is white space for [int]. *)
Fixpoint all_blank (s : string) : bool :=
  match s with
  | EmptyString => true
  | String c s' => int_isspace c && all_blank s'
  end.

(** The occurrence writes the attribute [k] of the namespace. *)
Definition touches (k : string) (o : occurrence) : Prop :=
  match o with
  | Opt a _ => dest a = k
  | Sub _ => k = "subparser"
  end.

(** Registering [specs] one after the other on the options [acts]: the
    outcome and the options registered when the run ends. *)
Fixpoint add_actions (specs acts : list Action) : result unit * list Action :=
  match specs with
  | [] => (Ok (), acts)
  | spec :: specs' =>
      match add_action spec acts with
      | Ok acts' => add_actions specs' acts'
      | Raise e => (Raise e, acts)
      end
  end.

(** The instance [self] with [acts] as the options of its parser. *)
Definition with_actions (self : Arguments) (acts : list Action) : Arguments :=
  mkArguments (args self) (parsed_arg self)
    (mkArgumentParser (description (parser self)) acts (subparsers (parser self)))
    (trace self).

(** The parser of the download script: a new instance with
    [testdata_dl_options]. *)
Definition download_parser (description : string) : ArgumentParser :=
  parser (testdata_dl_options (Arguments_init [] description)).2.

(** [config] is the only appended attribute and nothing is counted. *)
Definition append_discipline (a : Action) : bool :=
  bool_decide (dest a = "config" ↔ kind a = Append)
  && bool_decide (kind a ≠ Count).

(** The occurrence is an option, not the subcommand. *)
Definition is_option (o : occurrence) : Prop :=
  match o with
  | Opt _ _ => True
  | Sub _ => False
  end.

(** The first value that [set_defaults] gave the key [k]. *)
Fixpoint assoc (k : string) (kvs : list (string * pyval)) : option pyval :=
  match kvs with
  | [] => None
  | (k', v) :: kvs' => if String.eqb k k' then Some v else assoc k kvs'
  end.

(** No option is stored under [func] or [subparser]. *)
Definition command_discipline (a : Action) : bool :=
  bool_decide (dest a ≠ "func") && bool_decide (dest a ≠ "subparser").

(** A second sample environment, whose recogniser also accepts the name of
    a subcommand as the last argument. *)
Fixpoint recognise_pairs_command (p : ArgumentParser) (args : list string)
    : result (list occurrence) :=
  match args with
  | [] => Ok []
  | [name] =>
      match find (λ sp, String.eqb (sub_name sp) name) (registered_subparsers p) with
      | Some sp => Ok [Sub sp]
      | None => Raise SystemExit
      end
  | flag :: value :: rest =>
      if bool_decide (flag ∈ ["-c"; "--config"]) then
        match find (λ a, bool_decide (flag ∈ option_strings a)) (actions p) with
        | Some a =>
            occs ← recognise_pairs_command p rest;
            mret (Opt a (VStr value) :: occs)
        | None => Raise SystemExit
        end
      else Raise SystemExit
  end.

Definition sample_externals_commands : Externals := {|
  DEFAULT_CONFIG := "config.json";
  DYNAMIC_WHITELIST := 20;
  DEFAULT_HYPEROPT := "DefaultHyperOpts";
  HYPEROPT_EPOCH := 100;
  __version__ := "0.18.5";
  recognise := recognise_pairs_command
|}.

(** * Properties *)

(** ** Characters and strings *)

#[local] Arguments String.append !_ _ / : simpl nomatch.

Lemma isdigit_cases (c : ascii) :
  isdigit c = true →
  c = "0"%char ∨ c = "1"%char ∨ c = "2"%char ∨ c = "3"%char ∨ c = "4"%char
  ∨ c = "5"%char ∨ c = "6"%char ∨ c = "7"%char ∨ c = "8"%char ∨ c = "9"%char.
Proof.
  destruct c as [[] [] [] [] [] [] [] []]; vm_compute; intros H;
    try discriminate H; tauto.
Qed.

Ltac digit_cases c H :=
  let E := fresh in
  destruct (isdigit_cases c H) as [E|[E|[E|[E|[E|[E|[E|[E|[E|E]]]]]]]]];
  subst c.

Lemma isdigit_not_minus c : isdigit c = true → Ascii.eqb "-" c = false.
Proof. intros H. digit_cases c H; reflexivity. Qed.

Lemma isdigit_not_nl c : isdigit c = true → Ascii.eqb c "010" = false.
Proof. intros H. digit_cases c H; reflexivity. Qed.

Lemma isdigit_not_space c : isdigit c = true → int_isspace c = false.
Proof. intros H. digit_cases c H; reflexivity. Qed.

Lemma digit_value_bounds c : isdigit c = true → (0 ≤ digit_value c ≤ 9)%Z.
Proof. intros H. digit_cases c H; vm_compute; split; discriminate. Qed.

Lemma str_app_assoc (a b c : string) : (a +:+ b) +:+ c = a +:+ (b +:+ c).
Proof. induction a as [|x a IH]; simpl; [done | by f_equal]. Qed.

Lemma str_app_empty_r (a : string) : a +:+ "" = a.
Proof. induction a as [|x a IH]; simpl; [done | by f_equal]. Qed.

Lemma str_length_app (a b : string) :
  String.length (a +:+ b) = String.length a + String.length b.
Proof. induction a as [|x a IH]; simpl; [done | by f_equal]. Qed.

Lemma str_take_app (a b : string) : str_take (String.length a) (a +:+ b) = a.
Proof. induction a as [|x a IH]; simpl; [by destruct b | by f_equal]. Qed.

Lemma str_drop_app (a b : string) : str_drop (String.length a) (a +:+ b) = b.
Proof. induction a as [|x a IH]; simpl; [by destruct b | done]. Qed.

Lemma str_take_drop (n : nat) (s : string) : str_take n s +:+ str_drop n s = s.
Proof.
  revert s; induction n as [|n IH]; intros [|c s]; simpl; try done.
  by f_equal.
Qed.

Lemma str_take_all (s : string) : str_take (String.length s) s = s.
Proof. induction s as [|c s IH]; simpl; [done | by f_equal]. Qed.

Lemma all_digits_app (a b : string) :
  all_digits (a +:+ b) = all_digits a && all_digits b.
Proof.
  induction a as [|x a IH]; simpl; [done|].
  rewrite IH. by destruct (isdigit x).
Qed.

Lemma digit_run_app (a r : string) :
  all_digits a = true → digit_run r = 0 → digit_run (a +:+ r) = String.length a.
Proof.
  intros Ha Hr. induction a as [|x a IH]; simpl in *; [done|].
  apply andb_prop in Ha as [-> Ha]. by rewrite IH.
Qed.

Lemma all_digits_take_run (s : string) : all_digits (str_take (digit_run s) s) = true.
Proof.
  induction s as [|c s IH]; simpl; [done|].
  destruct (isdigit c) eqn:E; simpl; [by rewrite E | done].
Qed.

Lemma digit_run_drop_run (s : string) : digit_run (str_drop (digit_run s) s) = 0.
Proof.
  induction s as [|c s IH]; simpl; [done|].
  destruct (isdigit c) eqn:E; simpl; [done | by rewrite E].
Qed.

Lemma digit_run_0 (s : string) : digit_run s = 0 ↔ head_digit s = false.
Proof. destruct s as [|c s]; simpl; [done|]. by destruct (isdigit c). Qed.

Lemma head_digit_drop (j : nat) (a r : string) :
  all_digits a = true → j < String.length a →
  head_digit (str_drop j (a +:+ r)) = true.
Proof.
  revert a; induction j as [|j IH]; intros [|x a] Ha Hj; simpl in *; try lia.
  - by apply andb_prop in Ha as [-> _].
  - apply andb_prop in Ha as [_ Ha]. apply IH; [done | lia].
Qed.

(** ** The matcher *)

Lemma at_end_head_digit (s : string) : head_digit s = true → at_end s = false.
Proof.
  destruct s as [|c [|c' s]]; simpl; try done.
  apply isdigit_not_nl.
Qed.

Lemma exec_no_digit_next p pos s marks groups :
  no_digit_next p = true → head_digit s = true →
  exec p pos s marks groups = None.
Proof.
  revert pos marks groups.
  induction p as [|t p IH]; intros pos marks groups Hp Hs; [done|].
  destruct t; simpl in *; try done.
  - destruct (pos =? 0); auto.
  - by rewrite at_end_head_digit.
  - destruct s as [|c' s]; [done|]. simpl in Hs.
    destruct (Ascii.eqb_spec c c') as [->|]; [|done].
    by rewrite Hs in Hp.
  - auto.
  - destruct marks; auto.
Qed.

Lemma backtrack_longest {A : Type} (lo n : nat) (k : nat → option A) :
  (∀ j, j < n → k j = None) →
  backtrack lo n k = if lo <=? n then k n else None.
Proof.
  revert lo. induction n as [|n IH]; intros lo Hk; simpl.
  - destruct lo; simpl; [by destruct (k 0) | done].
  - destruct (Nat.ltb_spec (S n) lo) as [Hlt|Hge].
    + by rewrite (proj2 (Nat.leb_gt lo (S n))).
    + rewrite (proj2 (Nat.leb_le lo (S n))) by done.
      destruct (k (S n)) eqn:E; [done|].
      rewrite IH by (intros j Hj; apply Hk; lia).
      rewrite Hk by lia. by destruct (lo <=? n).
Qed.

(** A repetition of [\d] in front of a pattern that cannot continue on a
    digit takes the whole run of digits or fails. *)
Lemma exec_Digits lo hi p pos a r marks groups :
  all_digits a = true → digit_run r = 0 → no_digit_next p = true →
  exec (Digits lo hi :: p) pos (a +:+ r) marks groups =
    if fits lo hi (String.length a)
    then exec p (pos + String.length a) r marks groups
    else None.
Proof.
  intros Ha Hr Hp. cbn [exec]. rewrite digit_run_app by done.
  remember (match hi with
            | Some h => h `min` String.length a
            | None => String.length a
            end) as n eqn:En.
  assert (Hn : n ≤ String.length a) by (destruct hi; lia).
  rewrite backtrack_longest; last first.
  { intros j Hj. apply exec_no_digit_next; [done|].
    apply head_digit_drop; [done | lia]. }
  assert (Hshort : n < String.length a →
    exec p (pos + n) (str_drop n (a +:+ r)) marks groups = None).
  { intros Hlt. apply exec_no_digit_next; [done|]. by apply head_digit_drop. }
  unfold fits. destruct hi as [h|]; subst n.
  - destruct (Nat.leb_spec (String.length a) h) as [Hh|Hh].
    + rewrite Nat.min_r by done. rewrite str_drop_app, andb_true_r. done.
    + rewrite andb_false_r. rewrite Hshort by lia. by destruct (lo <=? _).
  - by rewrite str_drop_app, andb_true_r.
Qed.

Lemma exec_Close_captures p pos a r marks groups :
  exec (Close :: p) pos r ((a +:+ r) :: marks) groups =
  exec p pos r marks (groups ++ [a]).
Proof.
  cbn [exec]. rewrite str_length_app.
  replace (String.length a + String.length r - String.length r)
    with (String.length a) by lia.
  by rewrite str_take_app.
Qed.

Lemma exec_Eol_last pos r marks groups :
  exec [Eol] pos r marks groups = if at_end r then Some groups else None.
Proof. done. Qed.

Lemma at_end_digits_app (b r : string) :
  all_digits b = true →
  at_end (b +:+ r) = (String.length b =? 0) && at_end r.
Proof.
  intros Hb. destruct b as [|c b]; [done|].
  apply at_end_head_digit. simpl in *. by apply andb_prop in Hb as [-> _].
Qed.

Section shapes.
Variables (lo : nat) (hi : option nat).
Variables (a b r : string).
Hypothesis Ha : all_digits a = true.
Hypothesis Hb : all_digits b = true.
Hypothesis Hr : digit_run r = 0.

(** [^-(\d{lo,hi})$] *)
Lemma re_match_stop :
  re_match [Bol; Chr "-"; Open; Digits lo hi; Close; Eol]
    (a +:+ "-" +:+ b +:+ r) =
  if (String.length a =? 0) && fits lo hi (String.length b) && at_end r
  then Some [b] else None.
Proof using Ha Hb Hr.
  unfold re_match. destruct a as [|c a'].
  - change (exec [Bol; Chr "-"; Open; Digits lo hi; Close; Eol] 0
             ("" +:+ "-" +:+ b +:+ r) [] [])
      with (exec (Digits lo hi :: [Close; Eol]) 1 (b +:+ r) [b +:+ r] []).
    rewrite exec_Digits by done.
    destruct (fits lo hi (String.length b)); [|done].
    by rewrite exec_Close_captures, exec_Eol_last.
  - simpl in Ha. apply andb_prop in Ha as [Hc _].
    cbn [exec String.append Nat.eqb]. by rewrite (isdigit_not_minus c Hc).
Qed.

(** [^(\d{lo,hi})-$] *)
Lemma re_match_start :
  re_match [Bol; Open; Digits lo hi; Close; Chr "-"; Eol]
    (a +:+ "-" +:+ b +:+ r) =
  if fits lo hi (String.length a) && (String.length b =? 0) && at_end r
  then Some [a] else None.
Proof using Ha Hb Hr.
  unfold re_match.
  change (exec [Bol; Open; Digits lo hi; Close; Chr "-"; Eol] 0
            (a +:+ "-" +:+ b +:+ r) [] [])
    with (exec (Digits lo hi :: [Close; Chr "-"; Eol]) 0
            (a +:+ "-" +:+ b +:+ r) [a +:+ "-" +:+ b +:+ r] []).
  rewrite exec_Digits by done.
  destruct (fits lo hi (String.length a)); [|done].
  rewrite exec_Close_captures.
  change (exec [Chr "-"; Eol] (0 + String.length a) ("-" +:+ b +:+ r) [] ([] ++ [a]))
    with (exec [Eol] (S (0 + String.length a)) (b +:+ r) [] [a]).
  by rewrite exec_Eol_last, at_end_digits_app.
Qed.

(** [^(\d{lo,hi})-(\d{lo,hi})$] *)
Lemma re_match_both :
  re_match [Bol; Open; Digits lo hi; Close; Chr "-";
            Open; Digits lo hi; Close; Eol]
    (a +:+ "-" +:+ b +:+ r) =
  if fits lo hi (String.length a) && fits lo hi (String.length b) && at_end r
  then Some [a; b] else None.
Proof using Ha Hb Hr.
  unfold re_match.
  change (exec [Bol; Open; Digits lo hi; Close; Chr "-";
                Open; Digits lo hi; Close; Eol] 0
            (a +:+ "-" +:+ b +:+ r) [] [])
    with (exec (Digits lo hi :: [Close; Chr "-"; Open; Digits lo hi; Close; Eol])
            0 (a +:+ "-" +:+ b +:+ r) [a +:+ "-" +:+ b +:+ r] []).
  rewrite exec_Digits by done.
  destruct (fits lo hi (String.length a)); [|done].
  rewrite exec_Close_captures.
  change (exec [Chr "-"; Open; Digits lo hi; Close; Eol] (0 + String.length a)
            ("-" +:+ b +:+ r) [] ([] ++ [a]))
    with (exec (Digits lo hi :: [Close; Eol]) (S (0 + String.length a))
            (b +:+ r) [b +:+ r] [a]).
  rewrite exec_Digits by done.
  destruct (fits lo hi (String.length b)); [|done].
  by rewrite exec_Close_captures, exec_Eol_last.
Qed.

(** [^(-\d+)$] *)
Lemma re_match_line :
  re_match [Bol; Open; Chr "-"; d_plus; Close; Eol] (a +:+ "-" +:+ b +:+ r) =
  if (String.length a =? 0) && (1 <=? String.length b) && at_end r
  then Some ["-" +:+ b] else None.
Proof using Ha Hb Hr.
  unfold re_match, d_plus. destruct a as [|c a'].
  - change (exec [Bol; Open; Chr "-"; Digits 1 None; Close; Eol] 0
             ("" +:+ "-" +:+ b +:+ r) [] [])
      with (exec (Digits 1 None :: [Close; Eol]) 1 (b +:+ r)
              [("-" +:+ b) +:+ r] []).
    rewrite exec_Digits by done. unfold fits. rewrite andb_true_r.
    destruct (1 <=? String.length b); [|done].
    by rewrite exec_Close_captures, exec_Eol_last.
  - simpl in Ha. apply andb_prop in Ha as [Hc _].
    cbn [exec String.append Nat.eqb]. by rewrite (isdigit_not_minus c Hc).
Qed.
End shapes.

Lemma fits_exact (k n : nat) : fits k (Some k) n = (n =? k).
Proof.
  unfold fits.
  destruct (Nat.leb_spec k n), (Nat.leb_spec n k), (Nat.eqb_spec n k);
    simpl; try done; lia.
Qed.

Lemma fits_plus (n : nat) : fits 1 None n = negb (n =? 0).
Proof. unfold fits. by destruct n. Qed.

(** ** [int] on runs of digits *)

Lemma lstrip_head (c : ascii) (s : string) :
  int_isspace c = false → lstrip (String c s) = String c s.
Proof. intros H. simpl. by rewrite H. Qed.

Lemma rstrip_digits (s : string) : all_digits s = true → rstrip s = s.
Proof.
  induction s as [|c s IH]; simpl; [done|].
  intros [Hc Hs]%andb_prop. rewrite IH by done.
  destruct s; [by rewrite isdigit_not_space | done].
Qed.

Lemma int_literal_digits (nd : bool) (acc : Z) (c : ascii) (s : string) :
  all_digits (String c s) = true →
  int_literal nd acc (String c s) = Some (digits_value_from acc (String c s)).
Proof.
  revert nd acc c. induction s as [|c' s IH]; intros nd acc c.
  - simpl. rewrite andb_true_r. by intros ->.
  - intros [Hc Hs]%andb_prop.
    change (int_literal nd acc (String c (String c' s)))
      with (if isdigit c
            then int_literal false (10 * acc + digit_value c) (String c' s)
            else if Ascii.eqb c "_" && negb nd
                 then int_literal true acc (String c' s) else None).
    rewrite Hc. by rewrite IH.
Qed.

Lemma digit_count_digits (s : string) :
  all_digits s = true → digit_count s = String.length s.
Proof.
  induction s as [|c s IH]; [done|].
  intros [Hc Hs]%andb_prop. cbn [digit_count String.length].
  by rewrite Hc, IH.
Qed.

Lemma read_digits_short (s : string) :
  String.length s ≤ int_max_str_digits → read_digits s = Ok (digits_value s).
Proof.
  intros H. unfold read_digits.
  by destruct (Nat.ltb_spec int_max_str_digits (String.length s)); [lia|].
Qed.

Lemma read_digits_long (s : string) :
  int_max_str_digits < String.length s → read_digits s = Raise ValueError.
Proof.
  intros H. unfold read_digits.
  by destruct (Nat.ltb_spec int_max_str_digits (String.length s)); [|lia].
Qed.

Lemma read_digits_10 (s : string) :
  String.length s = 10 → read_digits s = Ok (digits_value s).
Proof. intros H. unfold read_digits. by rewrite H. Qed.

Lemma int_digits (s : string) :
  all_digits s = true → s ≠ "" → int s = read_digits s.
Proof.
  intros Hs Hne. destruct s as [|c s]; [done|]. clear Hne.
  unfold int, read_digits. pose proof Hs as [Hc _]%andb_prop.
  rewrite lstrip_head by by apply isdigit_not_space.
  rewrite rstrip_digits by done.
  assert (int_signed (String c s) = int_literal true 0 (String c s)) as ->
    by (digit_cases c Hc; done).
  by rewrite int_literal_digits, digit_count_digits.
Qed.

Lemma int_minus_digits (s : string) :
  all_digits s = true → s ≠ "" →
  int ("-" +:+ s) = (n ← read_digits s; mret (- n)%Z).
Proof.
  intros Hs Hne. destruct s as [|c s]; [done|]. clear Hne.
  unfold int, read_digits.
  change ("-" +:+ String c s) with (String "-" (String c s)).
  rewrite lstrip_head by done.
  assert (rstrip (String "-" (String c s)) = String "-" (String c s)) as ->.
  { change (rstrip (String "-" (String c s)))
      with (match rstrip (String c s) with
            | EmptyString => String "-" EmptyString
            | r => String "-" r
            end).
    by rewrite rstrip_digits. }
  change (int_signed (String "-" (String c s)))
    with (Z.opp <$> int_literal true 0 (String c s)).
  change (digit_count (String "-" (String c s)))
    with (digit_count (String c s)).
  rewrite int_literal_digits, digit_count_digits by done.
  cbn [fmap option_fmap option_map].
  by destruct (int_max_str_digits <? String.length (String c s)).
Qed.

(** ** The body of the loop, rule by rule *)

Lemma groups_stop_date (b : string) :
  timerange_of_groups (None, Some "date") [b] =
  stop ← (if String.length b =? 8
          then arrow_get_YYYYMMDD_timestamp b else int b);
  mret (mkTimeRange None (Some "date") 0 stop).
Proof. reflexivity. Qed.

Lemma groups_start_date (a : string) :
  timerange_of_groups (Some "date", None) [a] =
  start ← (if String.length a =? 8
           then arrow_get_YYYYMMDD_timestamp a else int a);
  mret (mkTimeRange (Some "date") None start 0).
Proof.
  unfold timerange_of_groups; simpl.
  by destruct (if String.length a =? 8 then _ else _).
Qed.

Lemma groups_both_date (a b : string) :
  timerange_of_groups (Some "date", Some "date") [a; b] =
  start ← (if String.length a =? 8
           then arrow_get_YYYYMMDD_timestamp a else int a);
  stop ← (if String.length b =? 8
          then arrow_get_YYYYMMDD_timestamp b else int b);
  mret (mkTimeRange (Some "date") (Some "date") start stop).
Proof.
  unfold timerange_of_groups; simpl.
  by destruct (if String.length a =? 8 then _ else _).
Qed.

Lemma groups_stop_line (x : string) :
  timerange_of_groups (None, Some "line") [x] =
  stop ← int x; mret (mkTimeRange None (Some "line") 0 stop).
Proof. reflexivity. Qed.

Lemma groups_start_line (a : string) :
  timerange_of_groups (Some "line", None) [a] =
  start ← int a; mret (mkTimeRange (Some "line") None start 0).
Proof. unfold timerange_of_groups; simpl. by destruct (int a). Qed.

Lemma groups_index (a b : string) :
  timerange_of_groups (Some "index", Some "index") [a; b] =
  start ← int a; stop ← int b;
  mret (mkTimeRange (Some "index") (Some "index") start stop).
Proof. unfold timerange_of_groups; simpl. by destruct (int a). Qed.

Lemma length_0_empty (s : string) : String.length s = 0 → s = "".
Proof. by destruct s. Qed.

Lemma length_pos_nonempty (s : string) : String.length s ≠ 0 → s ≠ "".
Proof. by destruct s. Qed.

Ltac eqb_to_prop :=
  repeat match goal with
         | H : (_ =? _) = true |- _ => apply Nat.eqb_eq in H
         | H : (_ =? _) = false |- _ => apply Nat.eqb_neq in H
         end.

(** ** The resolver on texts of the shape [a-b]

    On a text made of a run of digits, a dash, a run of digits and a rest
    that does not start with a digit, the loop over [syntax] computes the
    grammar table when the rest is the end of the text, and raises
    otherwise. *)
Lemma parse_timerange_sides (a b r : string) :
  all_digits a = true → all_digits b = true → digit_run r = 0 →
  parse_timerange (Some (a +:+ "-" +:+ b +:+ r)) =
    if at_end r then timerange_table (a +:+ "-" +:+ b +:+ r) a b
    else Raise (incorrect_syntax (a +:+ "-" +:+ b +:+ r)).
Proof.
  intros Ha Hb Hr.
  unfold parse_timerange, syntax, parse_timerange_rules, d_.
  rewrite re_match_line by done. unfold d_plus.
  rewrite !re_match_stop, !re_match_start, !re_match_both by done.
  rewrite !fits_exact, !fits_plus.
  unfold timerange_table.
  generalize (a +:+ "-" +:+ b +:+ r); intros text.
  destruct (at_end r); rewrite ?andb_false_r; [|done].
  rewrite ?andb_true_r.
  replace (1 <=? String.length b) with (negb (String.length b =? 0))
    by (by destruct (String.length b)).
  destruct (String.length a =? 0) eqn:A0, (String.length a =? 8) eqn:A8,
    (String.length a =? 10) eqn:A10, (String.length b =? 0) eqn:B0,
    (String.length b =? 8) eqn:B8, (String.length b =? 10) eqn:B10;
    cbn [andb negb];
    rewrite ?groups_stop_date, ?groups_start_date, ?groups_both_date,
      ?groups_stop_line, ?groups_start_line, ?groups_index, ?A8, ?B8;
    eqb_to_prop; try lia;
    rewrite ?int_minus_digits, ?int_digits
      by auto using length_pos_nonempty;
    try done; by destruct (read_digits _).
Qed.

(** ** Texts without a dash after the leading digits *)

Lemma exec_Chr_no_dash p pos s marks groups :
  head_dash s = false → exec (Chr "-" :: p) pos s marks groups = None.
Proof. destruct s as [|c s]; [done|]. cbn [exec head_dash]. by intros ->. Qed.

Lemma head_dash_digits_app (a r : string) :
  all_digits a = true → head_dash r = false → head_dash (a +:+ r) = false.
Proof.
  destruct a as [|c a]; [done|]. intros [Hc _]%andb_prop _.
  by apply isdigit_not_minus.
Qed.

Section no_dash.
Variables (a r : string).
Hypothesis Ha : all_digits a = true.
Hypothesis Hr : digit_run r = 0.
Hypothesis Hd : head_dash r = false.

Lemma re_match_dash_first p :
  re_match (Bol :: Chr "-" :: p) (a +:+ r) = None.
Proof using Ha Hd.
  unfold re_match.
  change (exec (Bol :: Chr "-" :: p) 0 (a +:+ r) [] [])
    with (exec (Chr "-" :: p) 0 (a +:+ r) [] []).
  by rewrite exec_Chr_no_dash by by apply head_dash_digits_app.
Qed.

Lemma re_match_open_dash_first p :
  re_match (Bol :: Open :: Chr "-" :: p) (a +:+ r) = None.
Proof using Ha Hd.
  unfold re_match.
  change (exec (Bol :: Open :: Chr "-" :: p) 0 (a +:+ r) [] [])
    with (exec (Chr "-" :: p) 0 (a +:+ r) [a +:+ r] []).
  by rewrite exec_Chr_no_dash by by apply head_dash_digits_app.
Qed.

Lemma re_match_digits_first lo hi p :
  re_match (Bol :: Open :: Digits lo hi :: Close :: Chr "-" :: p) (a +:+ r)
  = None.
Proof using Ha Hr Hd.
  unfold re_match.
  change (exec (Bol :: Open :: Digits lo hi :: Close :: Chr "-" :: p) 0
            (a +:+ r) [] [])
    with (exec (Digits lo hi :: Close :: Chr "-" :: p) 0 (a +:+ r)
            [a +:+ r] []).
  rewrite exec_Digits by done.
  destruct (fits lo hi (String.length a)); [|done].
  by rewrite exec_Close_captures, exec_Chr_no_dash.
Qed.

Lemma parse_timerange_no_dash :
  parse_timerange (Some (a +:+ r)) = Raise (incorrect_syntax (a +:+ r)).
Proof using Ha Hr Hd.
  unfold parse_timerange, syntax, parse_timerange_rules, d_, d_plus.
  by rewrite !re_match_dash_first, !re_match_open_dash_first,
    !re_match_digits_first.
Qed.
End no_dash.

(** Every text splits into its leading digits and a rest; when the rest
    starts with a dash, what follows splits again. *)
Lemma text_shape (text : string) :
  (∃ a r, text = a +:+ r ∧ all_digits a = true ∧ digit_run r = 0
          ∧ head_dash r = false)
  ∨ (∃ a b r, text = a +:+ "-" +:+ b +:+ r ∧ all_digits a = true
              ∧ all_digits b = true ∧ digit_run r = 0).
Proof.
  pose proof (str_take_drop (digit_run text) text) as Htext.
  pose proof (all_digits_take_run text) as Ha.
  pose proof (digit_run_drop_run text) as Hr.
  destruct (head_dash (str_drop (digit_run text) text)) eqn:Hd.
  - right. destruct (str_drop (digit_run text) text) as [|c r'] eqn:Er; [done|].
    change (Ascii.eqb "-" c = true) in Hd. apply Ascii.eqb_eq in Hd as <-.
    exists (str_take (digit_run text) text),
      (str_take (digit_run r') r'), (str_drop (digit_run r') r').
    split_and!; auto using all_digits_take_run, digit_run_drop_run.
    rewrite <- Htext at 1. f_equal. simpl. by rewrite str_take_drop.
  - left. by exists (str_take (digit_run text) text),
      (str_drop (digit_run text) text).
Qed.

Lemma at_end_cases (r : string) : at_end r = true ↔ r = "" ∨ r = newline.
Proof.
  destruct r as [|c [|c' r]]; simpl; split; try done; try tauto.
  - intros ->%Ascii.eqb_eq. by right.
  - intros [|[= ->]]; done.
  - intros [|]; done.
Qed.

(** A text on which the resolver does not raise [incorrect_syntax] has the
    shape [a-b], possibly followed by one line feed. *)
Lemma parse_timerange_shape (text : string) :
  parse_timerange (Some text) ≠ Raise (incorrect_syntax text) →
  ∃ a b r, text = a +:+ "-" +:+ b +:+ r ∧ all_digits a = true
           ∧ all_digits b = true ∧ at_end r = true
           ∧ parse_timerange (Some text) = timerange_table text a b.
Proof.
  intros Hok.
  destruct (text_shape text) as [(a & r & -> & Ha & Hr & Hd)
                                |(a & b & r & -> & Ha & Hb & Hr)].
  - by rewrite parse_timerange_no_dash in Hok.
  - rewrite parse_timerange_sides in Hok |- * by done.
    destruct (at_end r) eqn:Hend; [|done].
    by exists a, b, r.
Qed.

(** ** What the loop returns, for any table of rules *)

Ltac unfold_result :=
  unfold mbind, result_bind, mret, result_ret in *.

Lemma timerange_of_groups_fields stype rvals tr :
  timerange_of_groups stype rvals = Ok tr →
  starttype tr = stype.1 ∧ stoptype tr = stype.2
  ∧ (truthy stype.1 = false → startts tr = 0%Z)
  ∧ (truthy stype.2 = false → stopts tr = 0%Z).
Proof.
  unfold timerange_of_groups. unfold_result. intros H.
  repeat case_match; simplify_eq/=; done.
Qed.

Lemma timerange_of_groups_exn stype rvals e :
  timerange_of_groups stype rvals = Raise e → e = ValueError ∨ e = IndexError.
Proof.
  unfold timerange_of_groups, getitem, arrow_get_YYYYMMDD_timestamp, int.
  unfold_result. intros H.
  repeat case_match; simplify_eq/=; auto.
Qed.

Lemma parse_timerange_rules_Ok rules text tr :
  parse_timerange_rules rules text = Ok tr →
  ∃ rex stype rvals, (rex, stype) ∈ rules ∧ re_match rex text = Some rvals
                     ∧ timerange_of_groups stype rvals = Ok tr.
Proof.
  induction rules as [|[rex stype] rules IH]; simpl; [done|].
  destruct (re_match rex text) as [rvals|] eqn:Hm.
  - intros H. exists rex, stype, rvals. split_and!; [left | done | done].
  - intros (rex' & stype' & rvals' & Hin & H)%IH.
    exists rex', stype', rvals'. split; [by right | done].
Qed.

Lemma parse_timerange_rules_incorrect rules text :
  parse_timerange_rules rules text = Raise (incorrect_syntax text)
  ↔ Forall (λ rule, re_match rule.1 text = None) rules.
Proof.
  induction rules as [|[rex stype] rules IH]; simpl.
  - split; [constructor | done].
  - destruct (re_match rex text) as [rvals|] eqn:Hm.
    + split.
      * intros [|]%timerange_of_groups_exn; done.
      * intros [H _]%Forall_cons. simpl in H. congruence.
    + rewrite IH. split; [by constructor | by intros [_ ?]%Forall_cons].
Qed.

(** ** Resolving a time range: the claims *)

(** C5: when the time-range text is absent ([None]), [parse_timerange]
    returns [TimeRange(None, None, 0, 0)]: no restriction. *)
Theorem parse_timerange_absent :
  parse_timerange None = Ok (mkTimeRange None None 0 0).
Proof. reflexivity. Qed.

(** C6: a present text that matches none of the nine rules makes the
    resolver raise the exception that carries the offending text, and no
    [TimeRange] is returned; ["not-a-range"] is such a text. *)
Theorem parse_timerange_no_rule (text : string) :
  Forall (λ rule, re_match rule.1 text = None) syntax →
  parse_timerange (Some text)
    = Raise (Exception ("Incorrect syntax for timerange "
                        +:+ dquote +:+ text +:+ dquote))
  ∧ (∀ tr, parse_timerange (Some text) ≠ Ok tr)
  ∧ Forall (λ rule, re_match rule.1 "not-a-range" = None) syntax.
Proof.
  intros Hnone.
  assert (parse_timerange (Some text) = Raise (incorrect_syntax text)) as Hr
    by by apply parse_timerange_rules_incorrect.
  split_and!; [done | by rewrite Hr |].
  by apply parse_timerange_rules_incorrect.
Qed.

Lemma parse_timerange_no_rule_witness :
  Forall (λ rule, re_match rule.1 "not-a-range" = None) syntax
  ∧ parse_timerange (Some "not-a-range")
    = Raise (Exception ("Incorrect syntax for timerange "
                        +:+ dquote +:+ "not-a-range" +:+ dquote)).
Proof.
  assert (H : Forall (λ rule, re_match rule.1 "not-a-range" = None) syntax)
    by (repeat constructor).
  split; [exact H | exact (proj1 (parse_timerange_no_rule "not-a-range" H))].
Defined.

(** C9 as stated fails on the absent text: the resolver returns the pair
    [(None, None)], which no row of the grammar table lists. *)
Lemma timerange_pairs_counterexample :
  parse_timerange None = Ok (mkTimeRange None None 0 0)
  ∧ (None, None) ∉ grammar_pairs.
Proof.
  split; [reflexivity|].
  intros H. vm_compute in H.
  repeat (apply elem_of_cons in H as [[=]|H]). by apply elem_of_nil in H.
Qed.

(** C9, amended: every [TimeRange] that the resolver produces from a present
    text has a (start, stop) pair of kinds that is one of the pairs listed
    in the grammar table; for the absent text the pair is [(None, None)].
    In both cases the start value is 0 whenever the start kind is [None],
    and the stop value is 0 whenever the stop kind is [None]. *)
Theorem timerange_invariant (text : option string) (tr : TimeRange) :
  parse_timerange text = Ok tr →
  match text with
  | Some _ => (starttype tr, stoptype tr) ∈ grammar_pairs
  | None => (starttype tr, stoptype tr) = (None, None)
  end
  ∧ (starttype tr = None → startts tr = 0%Z)
  ∧ (stoptype tr = None → stopts tr = 0%Z).
Proof.
  destruct text as [text|].
  - unfold parse_timerange.
    intros (rex & stype & rvals & Hin & _ & Htr)%parse_timerange_rules_Ok.
    apply timerange_of_groups_fields in Htr as (-> & -> & Hstart & Hstop).
    split_and!.
    + apply list_elem_of_fmap. exists (rex, stype). by destruct stype.
    + intros E. apply Hstart. by rewrite E.
    + intros E. apply Hstop. by rewrite E.
  - by intros [= <-].
Qed.

Lemma timerange_invariant_witness :
  parse_timerange (Some "10-50")
    = Ok (mkTimeRange (Some "index") (Some "index") 10 50)
  ∧ (Some "index", Some "index") ∈ grammar_pairs.
Proof.
  assert (H : parse_timerange (Some "10-50")
              = Ok (mkTimeRange (Some "index") (Some "index") 10 50))
    by reflexivity.
  split; [exact H | exact (proj1 (timerange_invariant (Some "10-50") _ H))].
Defined.

(** C1 as stated fails: in ["20180101-123"] the start side is a numeral of
    exactly 8 digits, the text is accepted, and that side is classified as
    an index. *)
Lemma date_priority_counterexample :
  parse_timerange (Some "20180101-123")
    = Ok (mkTimeRange (Some "index") (Some "index") 20180101 123)
  ∧ String.length "20180101" = 8.
Proof. split; reflexivity. Qed.

(** C1, amended: every text that the resolver accepts is [a-b], two runs of
    digits around a dash (a line feed may end it).  A side of exactly 8 or
    exactly 10 digits is never classified as a line count; it is classified
    as a date when the other side is empty or has the same number of
    digits, and as an index when the other side is a numeral with a
    different number of digits. *)
Theorem timerange_date_priority (text : string) (tr : TimeRange) :
  parse_timerange (Some text) = Ok tr →
  ∃ a b r, text = a +:+ "-" +:+ b +:+ r
    ∧ all_digits a = true ∧ all_digits b = true ∧ at_end r = true
    ∧ (String.length a = 8 ∨ String.length a = 10 →
         starttype tr ≠ Some "line"
         ∧ (String.length b = 0 ∨ String.length b = String.length a →
              starttype tr = Some "date")
         ∧ (String.length b ≠ 0 → String.length b ≠ String.length a →
              starttype tr = Some "index"))
    ∧ (String.length b = 8 ∨ String.length b = 10 →
         stoptype tr ≠ Some "line"
         ∧ (String.length a = 0 ∨ String.length a = String.length b →
              stoptype tr = Some "date")
         ∧ (String.length a ≠ 0 → String.length a ≠ String.length b →
              stoptype tr = Some "index")).
Proof.
  intros Hok.
  destruct (parse_timerange_shape text) as (a & b & r & -> & Ha & Hb & Hr & Ht);
    [by rewrite Hok|].
  exists a, b, r. split_and!; try done.
  all: rewrite Ht in Hok; clear Ht; unfold timerange_table in Hok;
    unfold_result; intros Hlen;
    destruct (String.length a =? 0) eqn:A0, (String.length a =? 8) eqn:A8,
      (String.length a =? 10) eqn:A10, (String.length b =? 0) eqn:B0,
      (String.length b =? 8) eqn:B8, (String.length b =? 10) eqn:B10;
    cbn [andb] in Hok; eqb_to_prop; try lia;
    repeat case_match; simplify_eq/=;
    (split_and!; [done | intros; first [done | lia] | intros; first [done | lia]]).
Qed.

Lemma timerange_date_priority_witness :
  parse_timerange (Some "20180101-")
    = Ok (mkTimeRange (Some "date") None 1514764800 0)
  ∧ ∃ a b r, "20180101-" = a +:+ "-" +:+ b +:+ r
      ∧ all_digits a = true ∧ all_digits b = true ∧ at_end r = true.
Proof.
  assert (H : parse_timerange (Some "20180101-")
              = Ok (mkTimeRange (Some "date") None 1514764800 0))
    by reflexivity.
  split; [exact H|].
  destruct (timerange_date_priority "20180101-" _ H)
    as (a & b & r & E & Ha & Hb & Hr & _).
  by exists a, b, r.
Defined.

Lemma at_end_digit_run (r : string) : at_end r = true → digit_run r = 0.
Proof. intros [->| ->]%at_end_cases; reflexivity. Qed.

Lemma digits_value_from_bounds (acc : Z) (s : string) :
  all_digits s = true → (0 ≤ acc)%Z → (0 ≤ digits_value_from acc s)%Z.
Proof.
  revert acc. induction s as [|c s IH]; intros acc Hs Hacc; simpl; [done|].
  simpl in Hs. apply andb_prop in Hs as [Hc Hs].
  apply IH; [done|]. pose proof (digit_value_bounds c Hc). lia.
Qed.

Lemma digits_value_nonneg (s : string) :
  all_digits s = true → (0 ≤ digits_value s)%Z.
Proof. intros Hs. by apply digits_value_from_bounds. Qed.

(** C2: in the forms [-DDDDDDDD], [DDDDDDDD-] and [DDDDDDDD-DDDDDDDD]
    (rules 1 to 3) each side of 8 digits is read as YYYYMMDD and converted
    to the epoch seconds of the start of that UTC day, and the kinds are
    those of the rule; ["20180101-20180201"] resolves to
    [(date, date, 1514764800, 1517443200)]. *)
Theorem timerange_date8 (a b r : string) :
  all_digits a = true → String.length a = 8 →
  all_digits b = true → String.length b = 8 →
  at_end r = true →
  parse_timerange (Some ("-" +:+ b +:+ r))
    = (stop ← arrow_get_YYYYMMDD_timestamp b;
       mret (mkTimeRange None (Some "date") 0 stop))
  ∧ parse_timerange (Some (a +:+ "-" +:+ r))
    = (start ← arrow_get_YYYYMMDD_timestamp a;
       mret (mkTimeRange (Some "date") None start 0))
  ∧ parse_timerange (Some (a +:+ "-" +:+ b +:+ r))
    = (start ← arrow_get_YYYYMMDD_timestamp a;
       stop ← arrow_get_YYYYMMDD_timestamp b;
       mret (mkTimeRange (Some "date") (Some "date") start stop))
  ∧ parse_timerange (Some "20180101-20180201")
    = Ok (mkTimeRange (Some "date") (Some "date") 1514764800 1517443200).
Proof.
  intros Ha La Hb Lb Hr. pose proof (at_end_digit_run r Hr) as Hr0.
  split_and!; [| | |reflexivity].
  - change ("-" +:+ b +:+ r) with ("" +:+ "-" +:+ b +:+ r).
    rewrite (parse_timerange_sides "" b r) by done.
    unfold timerange_table. by rewrite Hr, Lb.
  - change (a +:+ "-" +:+ r) with (a +:+ "-" +:+ "" +:+ r).
    rewrite (parse_timerange_sides a "" r) by done.
    unfold timerange_table. by rewrite Hr, La.
  - rewrite parse_timerange_sides by done.
    unfold timerange_table. by rewrite Hr, La, Lb.
Qed.

Lemma timerange_date8_witness :
  parse_timerange (Some ("20180101" +:+ "-" +:+ "20180201" +:+ ""))
  = (start ← arrow_get_YYYYMMDD_timestamp "20180101";
     stop ← arrow_get_YYYYMMDD_timestamp "20180201";
     mret (mkTimeRange (Some "date") (Some "date") start stop)).
Proof.
  refine (proj1 (proj2 (proj2
    (timerange_date8 "20180101" "20180201" "" _ _ _ _ _)))); reflexivity.
Defined.

(** C3: in the forms [-DDDDDDDDDD], [DDDDDDDDDD-] and
    [DDDDDDDDDD-DDDDDDDDDD] (rules 4 to 6) each side of 10 digits is taken
    as it stands as epoch seconds, with no calendar conversion;
    ["1525132800-"] resolves to [(date, None, 1525132800, 0)]. *)
Theorem timerange_epoch10 (a b r : string) :
  all_digits a = true → String.length a = 10 →
  all_digits b = true → String.length b = 10 →
  at_end r = true →
  parse_timerange (Some ("-" +:+ b +:+ r))
    = Ok (mkTimeRange None (Some "date") 0 (digits_value b))
  ∧ parse_timerange (Some (a +:+ "-" +:+ r))
    = Ok (mkTimeRange (Some "date") None (digits_value a) 0)
  ∧ parse_timerange (Some (a +:+ "-" +:+ b +:+ r))
    = Ok (mkTimeRange (Some "date") (Some "date")
            (digits_value a) (digits_value b))
  ∧ parse_timerange (Some "1525132800-")
    = Ok (mkTimeRange (Some "date") None 1525132800 0).
Proof.
  intros Ha La Hb Lb Hr. pose proof (at_end_digit_run r Hr) as Hr0.
  split_and!; [| | |reflexivity].
  - change ("-" +:+ b +:+ r) with ("" +:+ "-" +:+ b +:+ r).
    rewrite (parse_timerange_sides "" b r) by done.
    unfold timerange_table. rewrite Hr, Lb, (read_digits_10 b) by done.
    reflexivity.
  - change (a +:+ "-" +:+ r) with (a +:+ "-" +:+ "" +:+ r).
    rewrite (parse_timerange_sides a "" r) by done.
    unfold timerange_table. rewrite Hr, La, (read_digits_10 a) by done.
    reflexivity.
  - rewrite parse_timerange_sides by done.
    unfold timerange_table. rewrite Hr, La, Lb, (read_digits_10 a), (read_digits_10 b) by done.
    reflexivity.
Qed.

Lemma timerange_epoch10_witness :
  parse_timerange (Some ("1525132800" +:+ "-" +:+ ""))
  = Ok (mkTimeRange (Some "date") None (digits_value "1525132800") 0).
Proof.
  refine (proj1 (proj2
    (timerange_epoch10 "1525132800" "1525132800" "" _ _ _ _ _))); reflexivity.
Defined.

(** C4 as stated fails: a dash followed by a run of 4301 digits matches
    rule 7, yet [int] refuses the captured text, which is longer than
    [int_max_str_digits], and the resolver raises [ValueError]. *)
Lemma timerange_last_lines_counterexample :
  all_digits (repeat_char 4301 "1") = true
  ∧ String.length (repeat_char 4301 "1") = 4301
  ∧ re_match [Bol; Open; Chr "-"; d_plus; Close; Eol]
      ("-" +:+ repeat_char 4301 "1")
    = Some ["-" +:+ repeat_char 4301 "1"]
  ∧ parse_timerange (Some ("-" +:+ repeat_char 4301 "1")) = Raise ValueError.
Proof. vm_compute. repeat split. Qed.

(** C4, amended: a text [-D+] whose run of digits has a length other than 8
    and 10 matches rule 7 with the dash and the digits as captured text.
    When the run has at most [int_max_str_digits] (4300) digits, the text
    resolves to start kind [None], stop kind [line], start value 0, and as
    stop value the captured signed integer as [int] reads it, which is
    never positive; ["-100"] resolves to [(None, line, 0, -100)].  When the
    run is longer, [int] raises [ValueError] and so does the resolver. *)
Theorem timerange_last_lines (b r : string) :
  all_digits b = true → b ≠ "" →
  String.length b ≠ 8 → String.length b ≠ 10 →
  at_end r = true →
  re_match [Bol; Open; Chr "-"; d_plus; Close; Eol] ("-" +:+ b +:+ r)
    = Some ["-" +:+ b]
  ∧ (String.length b ≤ int_max_str_digits →
       parse_timerange (Some ("-" +:+ b +:+ r))
         = Ok (mkTimeRange None (Some "line") 0 (- digits_value b))
       ∧ int ("-" +:+ b) = Ok (- digits_value b)%Z
       ∧ (- digits_value b ≤ 0)%Z)
  ∧ (int_max_str_digits < String.length b →
       parse_timerange (Some ("-" +:+ b +:+ r)) = Raise ValueError
       ∧ int ("-" +:+ b) = Raise ValueError)
  ∧ parse_timerange (Some "-100") = Ok (mkTimeRange None (Some "line") 0 (-100)).
Proof.
  intros Hb Hne L8 L10 Hr. pose proof (at_end_digit_run r Hr) as Hr0.
  assert (String.length b ≠ 0) as L0 by by destruct b.
  assert (parse_timerange (Some ("-" +:+ b +:+ r))
          = (stop ← read_digits b;
             mret (mkTimeRange None (Some "line") 0 (- stop)))) as Hparse.
  { change ("-" +:+ b +:+ r) with ("" +:+ "-" +:+ b +:+ r).
    rewrite (parse_timerange_sides "" b r) by done.
    unfold timerange_table. rewrite Hr.
    by rewrite (proj2 (Nat.eqb_neq _ _) L0), (proj2 (Nat.eqb_neq _ _) L8),
      (proj2 (Nat.eqb_neq _ _) L10). }
  split_and!; [| | |reflexivity].
  - change ("-" +:+ b +:+ r) with ("" +:+ "-" +:+ b +:+ r).
    rewrite (re_match_line "" b r) by done. rewrite Hr.
    by destruct b.
  - intros Hlen. split_and!.
    + by rewrite Hparse, read_digits_short.
    + by rewrite int_minus_digits, read_digits_short.
    + pose proof (digits_value_nonneg b Hb). lia.
  - intros Hlen. split.
    + by rewrite Hparse, read_digits_long.
    + by rewrite int_minus_digits, read_digits_long.
Qed.

Lemma timerange_last_lines_witness :
  parse_timerange (Some ("-" +:+ "100" +:+ ""))
  = Ok (mkTimeRange None (Some "line") 0 (- digits_value "100")).
Proof.
  refine (proj1 (proj1 (proj2
    (timerange_last_lines "100" "" _ _ _ _ _)) _));
    first [reflexivity | discriminate | unfold int_max_str_digits; simpl; lia].
Defined.

(** ** [int] reads back what [str] prints *)

Lemma all_digits_string_of_uint (d : uint) :
  all_digits (NilEmpty.string_of_uint d) = true.
Proof. induction d; simpl; auto. Qed.

Lemma digits_value_from_of_uint_acc (d : uint) (acc : positive) :
  digits_value_from (Z.pos acc) (NilEmpty.string_of_uint d)
  = Z.pos (Pos.of_uint_acc d acc).
Proof.
  revert acc. induction d; intros acc; [done|..];
    cbn [NilEmpty.string_of_uint digits_value_from Pos.of_uint_acc];
    rewrite <- IHd; f_equal; unfold digit_value; simpl; lia.
Qed.

Lemma digits_value_of_uint (d : uint) :
  digits_value (NilEmpty.string_of_uint d) = Z.of_N (Pos.of_uint d).
Proof.
  unfold digits_value. induction d; [done| |..].
  { exact IHd. }
  all: cbn [NilEmpty.string_of_uint digits_value_from Pos.of_uint];
    exact (digits_value_from_of_uint_acc d _).
Qed.

Lemma string_of_uint_nonempty (p : positive) :
  NilEmpty.string_of_uint (Pos.to_uint p) ≠ "".
Proof.
  pose proof (Unsigned.to_uint_nonnil p) as H.
  by destruct (Pos.to_uint p).
Qed.

Lemma NilZero_string_of_uint_pos (p : positive) :
  NilZero.string_of_uint (Pos.to_uint p) = NilEmpty.string_of_uint (Pos.to_uint p).
Proof.
  pose proof (Unsigned.to_uint_nonnil p) as H.
  by destruct (Pos.to_uint p).
Qed.

Lemma int_str (n : Z) :
  int (str n) = if int_max_str_digits <? digit_count (str n)
                then Raise ValueError else Ok n.
Proof.
  unfold str. destruct n as [|p|p]; [vm_compute; reflexivity|..];
    cbn [Z.to_int NilZero.string_of_int].
  - rewrite NilZero_string_of_uint_pos.
    rewrite int_digits
      by auto using all_digits_string_of_uint, string_of_uint_nonempty.
    unfold read_digits.
    rewrite digit_count_digits by apply all_digits_string_of_uint.
    by rewrite digits_value_of_uint, Unsigned.of_to.
  - rewrite NilZero_string_of_uint_pos.
    change (String "-" ?s) with ("-" +:+ s).
    rewrite int_minus_digits
      by auto using all_digits_string_of_uint, string_of_uint_nonempty.
    unfold read_digits.
    change (digit_count ("-" +:+ ?s)) with (digit_count s).
    rewrite digit_count_digits by apply all_digits_string_of_uint.
    rewrite digits_value_of_uint, Unsigned.of_to.
    by destruct (int_max_str_digits <? _).
Qed.

(** ** The validator *)

(** C8 as stated fails: the numeral of 4301 ones denotes a positive
    integer, yet [int] refuses it, being longer than [int_max_str_digits],
    and the validator raises the [ArgumentTypeError]. *)
Lemma check_int_positive_counterexample :
  all_digits (repeat_char 4301 "1") = true
  ∧ (0 < digits_value (repeat_char 4301 "1"))%Z
  ∧ int (repeat_char 4301 "1") = Raise ValueError
  ∧ check_int_positive (repeat_char 4301 "1")
    = Raise (invalid_positive (repeat_char 4301 "1")).
Proof. vm_compute. repeat split. Qed.

(** C8, amended: [check_int_positive] returns the integer for a raw string
    that [int] reads as a positive integer, the decimal numeral of every
    positive integer of at most [int_max_str_digits] (4300) digits included
    (["5"] gives 5); it raises the [ArgumentTypeError] that names the raw
    value when [int] does not read the string as an integer, which includes
    every numeral of more than 4300 digits, and when the integer is zero or
    negative (["0"], ["-3"], ["abc"]). *)
Theorem check_int_positive_spec (value : string) (n : Z) :
  (int value = Ok n → (0 < n)%Z → check_int_positive value = Ok n)
  ∧ (int value = Ok n → (n ≤ 0)%Z →
       check_int_positive value = Raise (invalid_positive value))
  ∧ (int value = Raise ValueError →
       check_int_positive value = Raise (invalid_positive value))
  ∧ ((0 < n)%Z → digit_count (str n) ≤ int_max_str_digits →
       check_int_positive (str n) = Ok n)
  ∧ (int_max_str_digits < digit_count (str n) →
       check_int_positive (str n) = Raise (invalid_positive (str n)))
  ∧ ((n ≤ 0)%Z → check_int_positive (str n) = Raise (invalid_positive (str n)))
  ∧ check_int_positive "5" = Ok 5%Z
  ∧ check_int_positive "0" = Raise (invalid_positive "0")
  ∧ check_int_positive "-3" = Raise (invalid_positive "-3")
  ∧ check_int_positive "abc" = Raise (invalid_positive "abc").
Proof.
  assert (Hpos : ∀ v, int v = Ok n → (0 < n)%Z → check_int_positive v = Ok n).
  { intros v Hv Hn. unfold check_int_positive. rewrite Hv. unfold_result.
    by rewrite (proj2 (Z.leb_gt n 0) Hn). }
  assert (Hneg : ∀ v, int v = Ok n → (n ≤ 0)%Z →
                      check_int_positive v = Raise (invalid_positive v)).
  { intros v Hv Hn. unfold check_int_positive. rewrite Hv. unfold_result.
    by rewrite (proj2 (Z.leb_le n 0) Hn). }
  assert (Herr : ∀ v, int v = Raise ValueError →
                      check_int_positive v = Raise (invalid_positive v)).
  { intros v Hv. unfold check_int_positive. by rewrite Hv. }
  pose proof (int_str n) as Hstr.
  split_and!; try reflexivity; auto.
  - intros Hn Hlen. apply Hpos; [|done]. rewrite Hstr.
    by destruct (Nat.ltb_spec int_max_str_digits (digit_count (str n)));
      [lia|].
  - intros Hlen. apply Herr. rewrite Hstr.
    by destruct (Nat.ltb_spec int_max_str_digits (digit_count (str n)));
      [|lia].
  - intros Hn.
    destruct (int_max_str_digits <? digit_count (str n)); auto.
Qed.

Lemma check_int_positive_spec_witness :
  int "42" = Ok 42%Z ∧ (0 < 42)%Z ∧ check_int_positive "42" = Ok 42%Z.
Proof.
  split_and!; [reflexivity | lia |].
  apply (proj1 (check_int_positive_spec "42" 42)); [reflexivity | lia].
Defined.

(** ** The namespace that [argparse] builds *)

Lemma set_default_lookup_Some (ns : Namespace) d v k x :
  ns !! k = Some x → set_default ns d v !! k = Some x.
Proof.
  intros Hk. unfold set_default. destruct (ns !! d) eqn:Hd; [done|].
  rewrite lookup_insert_ne; [done|]. congruence.
Qed.

Lemma action_defaults_lookup_Some acts (ns : Namespace) k x :
  ns !! k = Some x → action_defaults acts ns !! k = Some x.
Proof.
  unfold action_defaults. revert ns.
  induction acts as [|a acts IH]; intros ns Hk; simpl; [done|].
  apply IH. destruct (kind a); auto using set_default_lookup_Some.
Qed.

Lemma choose_subcommand_lookup_Some d sp (ns : Namespace) k x :
  d ≠ k → ns !! k = Some x → choose_subcommand d sp ns !! k = Some x.
Proof.
  intros Hd Hk. unfold choose_subcommand.
  assert (∀ kvs (m : Namespace), m !! k = Some x →
            foldl (λ ns kv, set_default ns kv.1 kv.2) m kvs !! k = Some x) as Hfold.
  { induction kvs as [|kv kvs IH]; intros m Hm; simpl; [done|].
    apply IH. by apply set_default_lookup_Some. }
  apply Hfold, action_defaults_lookup_Some. by rewrite lookup_insert_ne.
Qed.

(** One occurrence keeps the invariant of the namespace, or exits. *)
Lemma run_occurrence_inv p subs o vs ns :
  subparsers p = Some ("subparser", subs) →
  forallb dest_discipline (all_actions p) = true →
  valid_occurrence p o → namespace_inv vs ns →
  match run_occurrence p ns o with
  | Ok ns' => namespace_inv (vs ++ supplied "config" [o]) ns' ∧ ¬ exits o
  | Raise e => e = SystemExit ∧ exits o
  end.
Proof.
  intros Hsub Hdisc Hvalid [Hconfig [n Hlog]].
  destruct o as [a v|sp]; simpl.
  - simpl in Hvalid.
    rewrite forallb_forall in Hdisc. apply list_elem_of_In, Hdisc in Hvalid.
    unfold dest_discipline in Hvalid.
    apply andb_prop in Hvalid as [Hc%bool_decide_eq_true Hl%bool_decide_eq_true].
    unfold apply_action, namespace_inv.
    destruct (kind a) eqn:K.
    1-3: assert (dest a ≠ "config") by (intros E; by apply Hc in E);
      assert (dest a ≠ "loglevel") by (intros E; by apply Hl in E);
      rewrite bool_decide_eq_false_2 by done;
      rewrite app_nil_r, !lookup_insert_ne by done;
      (split; [eauto | by intros [|]]).
    + assert (dest a = "loglevel") as -> by by apply Hl.
      rewrite Hlog, bool_decide_eq_false_2 by done.
      rewrite app_nil_r, lookup_insert_ne, lookup_insert_eq by done.
      split; [eauto | by intros [|]].
    + assert (dest a = "config") as -> by by apply Hc.
      rewrite Hconfig, bool_decide_eq_true_2 by done.
      destruct vs as [|v0 vs]; simpl;
        rewrite lookup_insert_eq, lookup_insert_ne by done;
        (split; [eauto | by intros [|]]).
    + auto.
    + auto.
  - rewrite Hsub. unfold namespace_inv. rewrite app_nil_r.
    assert ("subparser" ≠ "config") as Hne1 by done.
    assert ("subparser" ≠ "loglevel") as Hne2 by done.
    rewrite (choose_subcommand_lookup_Some _ sp _ _ _ Hne1 Hconfig).
    rewrite (choose_subcommand_lookup_Some _ sp _ _ _ Hne2 Hlog).
    eauto.
Qed.

Lemma supplied_cons d o occs :
  supplied d (o :: occs) = supplied d [o] ++ supplied d occs.
Proof. unfold supplied. simpl. by destruct (match o with Opt _ _ => _ | Sub _ => _ end). Qed.

Lemma run_occurrences_inv p subs occs vs ns :
  subparsers p = Some ("subparser", subs) →
  forallb dest_discipline (all_actions p) = true →
  Forall (valid_occurrence p) occs → namespace_inv vs ns →
  match run_occurrences p ns occs with
  | Ok ns' => namespace_inv (vs ++ supplied "config" occs) ns' ∧ ¬ Exists exits occs
  | Raise e => e = SystemExit ∧ Exists exits occs
  end.
Proof.
  intros Hsub Hdisc Hvalid. revert vs ns.
  induction Hvalid as [|o occs Ho Hoccs IH]; intros vs ns Hinv;
    cbn [run_occurrences].
  - change (supplied "config" []) with (@nil pyval). rewrite app_nil_r. split; [done | by intros ?%Exists_nil].
  - pose proof (run_occurrence_inv p subs o vs ns Hsub Hdisc Ho Hinv) as Hstep.
    unfold_result. destruct (run_occurrence p ns o) as [ns'|e].
    + destruct Hstep as [Hinv' Hno].
      specialize (IH _ _ Hinv').
      destruct (run_occurrences p ns' occs) as [ns''|e].
      * rewrite supplied_cons, app_assoc.
        split; [apply IH | intros [?|?]%Exists_cons; [done | by apply IH]].
      * split; [apply IH | right; apply IH].
    + split; [apply Hstep | left; apply Hstep].
Qed.

(** ** The facade *)

Ltac unfold_method :=
  unfold mbind, method_bind, mret, method_ret, get_self, get_parser,
    set_parser, set_parsed_arg, record, lift in *.

Section facade_props.
Context `{!Externals}.

Lemma load_fresh (args : list string) (d : string) :
  _load_args (Arguments_init args d)
  = (Ok (), mkArguments args None (loaded_parser d) [SchemaBuilt]).
Proof. vm_compute. reflexivity. Qed.

(** A second construction of the schema stops at the first option: its
    strings are registered already, and the instance is left as it was. *)
Lemma load_again (self : Arguments) (d : string) :
  parser self = loaded_parser d →
  _load_args self = (Raise (ArgumentError "conflicting option string"), self).
Proof.
  destruct self as [args0 pa0 p0 tr0]. simpl. intros ->.
  vm_compute. reflexivity.
Qed.

Lemma loaded_discipline (d : string) :
  forallb dest_discipline (all_actions (loaded_parser d)) = true
  ∧ namespace_inv [] (initial_namespace (loaded_parser d))
  ∧ ∃ subs, subparsers (loaded_parser d) = Some ("subparser", subs).
Proof.
  split_and!.
  - vm_compute. reflexivity.
  - split; [|exists 0%Z]; vm_compute; reflexivity.
  - eexists. vm_compute. reflexivity.
Qed.

Lemma parse_args_state (self : Arguments) r self' :
  parse_args self = (r, self') →
  self' = mkArguments (args self) (parsed_arg self) (parser self)
            (trace self ++ [ParserCalled]).
Proof.
  unfold parse_args. unfold_method. simpl.
  destruct (ArgumentParser_parse_args (parser self) (args self)) as [ns|e];
    [|congruence].
  repeat case_match; congruence.
Qed.

Lemma get_parsed_arg_Ok (self : Arguments) ns self' :
  get_parsed_arg self = (Ok ns, self') → parsed_arg self' = Some ns.
Proof.
  unfold get_parsed_arg. unfold_method.
  destruct (parsed_arg self) as [ns0|] eqn:Hp; [by intros [= <- <-]|].
  destruct (_load_args self) as [[[]|e] s1]; [|done].
  destruct (parse_args s1) as [[ns1|e] s2]; [|done].
  by intros [= <- <-].
Qed.

Lemma get_parsed_arg_again (self : Arguments) ns :
  parsed_arg self = Some ns → get_parsed_arg self = (Ok ns, self).
Proof. intros Hp. unfold get_parsed_arg. unfold_method. by rewrite Hp. Qed.

Lemma calls_fixed (self : Arguments) ns k :
  parsed_arg self = Some ns → calls k self = self.
Proof.
  intros Hp. induction k as [|k IH]; [done|].
  unfold calls in *. simpl. rewrite IH. by rewrite (get_parsed_arg_again _ ns).
Qed.

Lemma get_parsed_arg_reached args d self :
  reached args d self → reached args d (get_parsed_arg self).2.
Proof.
  intros [->|[Hp Ht]].
  - right. unfold get_parsed_arg. unfold_method.
    change (parsed_arg (Arguments_init args d)) with (@None Namespace).
    cbv beta iota. rewrite load_fresh.
    destruct (parse_args _) as [[ns|e] s2] eqn:Hparse;
      apply parse_args_state in Hparse as ->; split; reflexivity.
  - right. unfold get_parsed_arg. unfold_method.
    destruct (parsed_arg self) as [ns0|] eqn:Hpa; [exact (conj Hp Ht)|].
    rewrite (load_again self d Hp). exact (conj Hp Ht).
Qed.

Lemma calls_reached args d n :
  reached args d (calls n (Arguments_init args d)).
Proof.
  induction n as [|n IH]; [by left|].
  unfold calls in *. simpl. by apply get_parsed_arg_reached.
Qed.

(** C7: on an instance whose schema is loaded, [parse_args] either exits
    (a [--help] or [--version] occurrence) or returns a namespace whose
    [config] is exactly the list of the values supplied to the config
    option, in the order given, when there is one at least, and the
    one-element list of the default config path when there is none. *)
Theorem parse_args_config (self : Arguments) (description : string)
    (occs : list occurrence) :
  parser self = loaded_parser description →
  recognise (parser self) (args self) = Ok occs →
  Forall (valid_occurrence (parser self)) occs →
  ∃ r self', parse_args self = (r, self') ∧
    match r with
    | Ok ns =>
        ¬ Exists exits occs ∧
        ns !! "config" =
          Some (VList (match supplied "config" occs with
                       | [] => [VStr DEFAULT_CONFIG]
                       | vs => vs
                       end))
    | Raise e => e = SystemExit ∧ Exists exits occs
    end.
Proof.
  intros Hp Hrec Hvalid.
  destruct (loaded_discipline description) as (Hdisc & Hinv & subs & Hsub).
  rewrite <- Hp in Hdisc, Hinv, Hsub.
  pose proof (run_occurrences_inv _ _ _ _ _ Hsub Hdisc Hvalid Hinv) as Hrun.
  unfold parse_args, ArgumentParser_parse_args. unfold_method.
  rewrite Hrec. unfold_result. cbv beta iota.
  destruct (run_occurrences _ _ occs) as [ns|e]; [|by eauto].
  destruct Hrun as [[Hconfig _] Hno]. rewrite app_nil_l in Hconfig.
  rewrite Hconfig.
  destruct (supplied "config" occs) as [|v vs]; simpl.
  - eexists _, _. split; [reflexivity|].
    split; [exact Hno | apply lookup_insert_eq].
  - eexists _, _. split; [reflexivity|].
    split; [exact Hno | exact Hconfig].
Qed.

(** C10: [get_parsed_arg] caches its result.  After any number of calls on
    an instance, whatever they returned or raised, the schema has been
    constructed at most once and the underlying parser has been called at
    most once; and when the next call returns a namespace, that namespace
    is stored in the instance and every later call returns it again and
    leaves the instance as it is. *)
Theorem get_parsed_arg_cached (args : list string) (description : string)
    (n : nat) :
  let self := calls n (Arguments_init args description) in
  length (filter (.= SchemaBuilt) (trace self)) ≤ 1
  ∧ length (filter (.= ParserCalled) (trace self)) ≤ 1
  ∧ ∀ ns self', get_parsed_arg self = (Ok ns, self') →
      parsed_arg self' = Some ns
      ∧ ∀ k, get_parsed_arg (calls k self') = (Ok ns, self').
Proof.
  intros self. split_and!.
  - destruct (calls_reached args description n) as [E|[_ E]];
      fold self in E; rewrite E; simpl; lia.
  - destruct (calls_reached args description n) as [E|[_ E]];
      fold self in E; rewrite E; simpl; lia.
  - intros ns self' Hcall. pose proof (get_parsed_arg_Ok _ _ _ Hcall) as Hp.
    split; [done|]. intros k.
    rewrite (calls_fixed self' ns k Hp). by apply get_parsed_arg_again.
Qed.

End facade_props.

Lemma parse_args_config_witness :
  let self := mkArguments ["--config"; "a.json"; "-c"; "b.json"] None
                (@loaded_parser sample_externals "bot") [SchemaBuilt] in
  let occs := [Opt config_action (VStr "a.json"); Opt config_action (VStr "b.json")] in
  @_load_args sample_externals
    (Arguments_init ["--config"; "a.json"; "-c"; "b.json"] "bot") = (Ok (), self)
  ∧ @recognise sample_externals (parser self) (args self) = Ok occs
  ∧ Forall (valid_occurrence (parser self)) occs
  ∧ ∃ ns self', @parse_args sample_externals self = (Ok ns, self')
      ∧ ns !! "config" = Some (VList [VStr "a.json"; VStr "b.json"]).
Proof.
  intros self occs.
  assert (Hrec : @recognise sample_externals (parser self) (args self) = Ok occs)
    by (vm_compute; reflexivity).
  assert (Hin : config_action ∈ all_actions (parser self)).
  { apply list_elem_of_lookup. exists 4. vm_compute. reflexivity. }
  assert (Hvalid : Forall (valid_occurrence (parser self)) occs).
  { constructor; [exact Hin|]. constructor; [exact Hin|]. constructor. }
  split; [vm_compute; reflexivity|].
  split; [exact Hrec|]. split; [exact Hvalid|].
  assert (Hp : parser self = @loaded_parser sample_externals "bot")
    by (subst self; cbn [parser]; reflexivity).
  pose proof (@parse_args_config sample_externals self "bot" occs
                Hp Hrec Hvalid) as (r & self' & Hparse & Hr).
  destruct r as [ns|e].
  - exists ns, self'. split; [exact Hparse|]. exact (proj2 Hr).
  - destruct Hr as [_ Hex]. exfalso. clear -Hex. subst occs.
    apply Exists_cons in Hex as [[Hk|Hk]|Hex]; try discriminate Hk.
    apply Exists_cons in Hex as [[Hk|Hk]|Hex]; try discriminate Hk.
    exact (proj1 (Exists_nil _) Hex).
Defined.

Lemma get_parsed_arg_cached_witness :
  ∃ ns self',
    @get_parsed_arg sample_externals (Arguments_init ["--config"; "a.json"] "bot")
      = (Ok ns, self')
    ∧ @get_parsed_arg sample_externals self' = (Ok ns, self')
    ∧ ns !! "config" = Some (VList [VStr "a.json"]).
Proof.
  assert (Hcfg :
    match (@get_parsed_arg sample_externals
             (Arguments_init ["--config"; "a.json"] "bot")).1 with
    | Ok ns => ns !! "config" = Some (VList [VStr "a.json"])
    | Raise _ => False
    end) by (vm_compute; reflexivity).
  destruct (@get_parsed_arg sample_externals
              (Arguments_init ["--config"; "a.json"] "bot"))
    as [[ns|e] self'] eqn:Hcall; cbn [fst] in Hcfg; [|destruct Hcfg].
  exists ns, self'. split; [reflexivity|].
  destruct (@get_parsed_arg_cached sample_externals
              ["--config"; "a.json"] "bot" 0) as (_ & _ & Hcached).
  destruct (Hcached ns self' Hcall) as [_ Hagain].
  split; [exact (Hagain 0) | exact Hcfg].
Defined.

(** * Further properties of the resolver *)

Lemma timerange_table_text (t1 t2 a b : string) :
  a ≠ "" ∨ b ≠ "" → timerange_table t1 a b = timerange_table t2 a b.
Proof.
  intros Hne. unfold timerange_table.
  destruct a as [|x a], b as [|y b]; try done. by destruct Hne.
Qed.

(** X1: a text [D+-] whose run of digits has a length other than 8 and 10
    (rule 8, "from line N on") and at most [int_max_str_digits] (4300)
    resolves to start kind [line], stop kind [None], the digits' value as
    start value, which is never negative, and stop value 0; with a longer
    run the resolver raises the [ValueError] of [int]. *)
Theorem timerange_first_lines (a r : string) :
  all_digits a = true → a ≠ "" →
  String.length a ≠ 8 → String.length a ≠ 10 →
  at_end r = true →
  (String.length a ≤ int_max_str_digits →
     parse_timerange (Some (a +:+ "-" +:+ r))
       = Ok (mkTimeRange (Some "line") None (digits_value a) 0)
     ∧ (0 ≤ digits_value a)%Z)
  ∧ (int_max_str_digits < String.length a →
       parse_timerange (Some (a +:+ "-" +:+ r)) = Raise ValueError).
Proof.
  intros Ha Hne L8 L10 Hr. pose proof (at_end_digit_run r Hr) as Hr0.
  assert (String.length a ≠ 0) as L0 by by destruct a.
  assert (parse_timerange (Some (a +:+ "-" +:+ r))
          = (start ← read_digits a;
             mret (mkTimeRange (Some "line") None start 0))) as Hparse.
  { change (a +:+ "-" +:+ r) with (a +:+ "-" +:+ "" +:+ r).
    rewrite (parse_timerange_sides a "" r) by done.
    unfold timerange_table. rewrite Hr.
    by rewrite (proj2 (Nat.eqb_neq _ _) L0), (proj2 (Nat.eqb_neq _ _) L8),
      (proj2 (Nat.eqb_neq _ _) L10). }
  split; intros Hlen.
  - split; [|by apply digits_value_nonneg].
    by rewrite Hparse, read_digits_short.
  - by rewrite Hparse, read_digits_long.
Qed.

Lemma timerange_first_lines_witness :
  parse_timerange (Some ("100" +:+ "-" +:+ ""))
  = Ok (mkTimeRange (Some "line") None (digits_value "100") 0).
Proof.
  refine (proj1 (proj1 (timerange_first_lines "100" "" _ _ _ _ _) _));
    first [reflexivity | discriminate | unfold int_max_str_digits; simpl; lia].
Defined.

(** X2: a text [D+-D+] with two non-empty runs of digits that are not both
    8 digits long and not both 10 digits long (rule 9), each of at most
    [int_max_str_digits] (4300) digits, resolves to kinds [index] and
    [index] with the two values as they stand, neither of them negative;
    when one of the runs is longer the resolver raises the [ValueError] of
    [int]. *)
Theorem timerange_index (a b r : string) :
  all_digits a = true → all_digits b = true → a ≠ "" → b ≠ "" →
  ¬ (String.length a = 8 ∧ String.length b = 8) →
  ¬ (String.length a = 10 ∧ String.length b = 10) →
  at_end r = true →
  (String.length a ≤ int_max_str_digits →
   String.length b ≤ int_max_str_digits →
     parse_timerange (Some (a +:+ "-" +:+ b +:+ r))
       = Ok (mkTimeRange (Some "index") (Some "index")
               (digits_value a) (digits_value b))
     ∧ (0 ≤ digits_value a)%Z ∧ (0 ≤ digits_value b)%Z)
  ∧ (int_max_str_digits < String.length a
     ∨ int_max_str_digits < String.length b →
       parse_timerange (Some (a +:+ "-" +:+ b +:+ r)) = Raise ValueError).
Proof.
  intros Ha Hb Hnea Hneb H8 H10 Hr. pose proof (at_end_digit_run r Hr) as Hr0.
  assert (String.length a ≠ 0) as La by by destruct a.
  assert (String.length b ≠ 0) as Lb by by destruct b.
  assert (parse_timerange (Some (a +:+ "-" +:+ b +:+ r))
          = (start ← read_digits a; stop ← read_digits b;
             mret (mkTimeRange (Some "index") (Some "index") start stop)))
    as Hparse.
  { rewrite parse_timerange_sides by done.
    unfold timerange_table. rewrite Hr.
    rewrite (proj2 (Nat.eqb_neq _ _) La), (proj2 (Nat.eqb_neq _ _) Lb).
    destruct (String.length a =? 8) eqn:A8, (String.length b =? 8) eqn:B8,
      (String.length a =? 10) eqn:A10, (String.length b =? 10) eqn:B10;
      cbn [andb]; eqb_to_prop; try done; lia. }
  split.
  - intros Hla Hlb. split_and!; [|by apply digits_value_nonneg..].
    by rewrite Hparse, !read_digits_short.
  - intros Hlen. rewrite Hparse.
    destruct (Nat.le_gt_cases (String.length a) int_max_str_digits) as [Hla|Hla].
    + destruct Hlen as [Hlen|Hlen]; [lia|].
      by rewrite (read_digits_short a), (read_digits_long b).
    + by rewrite (read_digits_long a).
Qed.

Lemma timerange_index_witness :
  parse_timerange (Some ("20180101" +:+ "-" +:+ "1525132800" +:+ ""))
  = Ok (mkTimeRange (Some "index") (Some "index")
          (digits_value "20180101") (digits_value "1525132800")).
Proof.
  refine (proj1 (proj1
    (timerange_index "20180101" "1525132800" "" _ _ _ _ _ _ _) _ _));
    first [reflexivity | discriminate | by intros [? ?]
          | unfold int_max_str_digits; simpl; lia].
Defined.

(** X3: the anchor [$] also matches before a line feed that ends the text,
    so a text [a-b] with a side that is not empty resolves to the same
    outcome with one line feed appended; with two line feeds appended no
    rule matches. *)
Theorem timerange_trailing_newline (a b : string) :
  all_digits a = true → all_digits b = true → a ≠ "" ∨ b ≠ "" →
  parse_timerange (Some (a +:+ "-" +:+ b +:+ newline))
    = parse_timerange (Some (a +:+ "-" +:+ b))
  ∧ parse_timerange (Some (a +:+ "-" +:+ b +:+ newline +:+ newline))
    = Raise (incorrect_syntax (a +:+ "-" +:+ b +:+ newline +:+ newline)).
Proof.
  intros Ha Hb Hne. split.
  - rewrite <- (str_app_empty_r b) at 2.
    rewrite !parse_timerange_sides by done.
    change (at_end newline) with true. change (at_end "") with true.
    cbv iota. by apply timerange_table_text.
  - by rewrite parse_timerange_sides.
Qed.

Lemma timerange_trailing_newline_witness :
  parse_timerange (Some ("100" +:+ "-" +:+ "" +:+ newline))
  = parse_timerange (Some ("100" +:+ "-" +:+ "")).
Proof.
  refine (proj1 (timerange_trailing_newline "100" "" _ _ _));
    first [reflexivity | by left].
Defined.

Lemma timerange_table_not_syntax_error (t text a b : string) :
  a ≠ "" ∨ b ≠ "" → timerange_table t a b ≠ Raise (incorrect_syntax text).
Proof.
  intros Hne.
  unfold timerange_table, arrow_get_YYYYMMDD_timestamp, read_digits,
    incorrect_syntax.
  unfold_result.
  assert (String.length a ≠ 0 ∨ String.length b ≠ 0) as Hlen
    by (destruct a, b; simpl; destruct Hne; auto).
  destruct (String.length a =? 0) eqn:A0, (String.length b =? 0) eqn:B0;
    eqb_to_prop; [lia|..]; repeat case_match; simplify_eq; done.
Qed.

(** X4: the resolver raises its syntax error exactly on the texts that are
    not of the shape [a-b]: two runs of digits, at least one of them not
    empty, around a dash, with at most one line feed after them. *)
Theorem parse_timerange_syntax_error_iff (text : string) :
  parse_timerange (Some text) = Raise (incorrect_syntax text)
  ↔ ¬ ∃ a b r, text = a +:+ "-" +:+ b +:+ r
        ∧ all_digits a = true ∧ all_digits b = true ∧ at_end r = true
        ∧ (a ≠ "" ∨ b ≠ "").
Proof.
  split.
  - intros Herr (a & b & r & -> & Ha & Hb & Hr & Hne).
    rewrite parse_timerange_sides in Herr by auto using at_end_digit_run.
    rewrite Hr in Herr. by apply timerange_table_not_syntax_error in Herr.
  - intros Hno.
    destruct (text_shape text) as [(a & r & -> & Ha & Hr & Hd)
                                  |(a & b & r & -> & Ha & Hb & Hr)].
    + by apply parse_timerange_no_dash.
    + rewrite parse_timerange_sides by done.
      destruct (at_end r) eqn:Hend; [|done].
      destruct a as [|x a]; [destruct b as [|y b]; [done|]|];
        exfalso; apply Hno; eexists _, _, r; split_and!; eauto.
Qed.

(** X5: an exception raised while a matched side of 8 digits is converted
    to a date is not caught: the resolver raises it, and the later rules
    (line counts, indices) are not tried on the text. *)
Theorem timerange_date_error_propagates (a b r : string) (e : exn) :
  all_digits a = true → all_digits b = true →
  String.length a = 8 → at_end r = true →
  arrow_get_YYYYMMDD_timestamp a = Raise e →
  parse_timerange (Some (a +:+ "-" +:+ r)) = Raise e
  ∧ parse_timerange (Some ("-" +:+ a +:+ r)) = Raise e
  ∧ (String.length b = 8 →
       parse_timerange (Some (a +:+ "-" +:+ b +:+ r)) = Raise e)
  ∧ (String.length b = 8 → ∀ start,
       arrow_get_YYYYMMDD_timestamp b = Ok start →
       parse_timerange (Some (b +:+ "-" +:+ a +:+ r)) = Raise e).
Proof.
  intros Ha Hb La Hr Herr. pose proof (at_end_digit_run r Hr) as Hr0.
  split_and!.
  - change (a +:+ "-" +:+ r) with (a +:+ "-" +:+ "" +:+ r).
    rewrite (parse_timerange_sides a "" r) by done.
    unfold timerange_table. by rewrite Hr, La, Herr.
  - change ("-" +:+ a +:+ r) with ("" +:+ "-" +:+ a +:+ r).
    rewrite (parse_timerange_sides "" a r) by done.
    unfold timerange_table. by rewrite Hr, La, Herr.
  - intros Lb. rewrite parse_timerange_sides by done.
    unfold timerange_table. by rewrite Hr, La, Lb, Herr.
  - intros Lb start Hstart. rewrite parse_timerange_sides by done.
    unfold timerange_table. by rewrite Hr, La, Lb, Hstart, Herr.
Qed.

Lemma timerange_date_error_propagates_witness :
  arrow_get_YYYYMMDD_timestamp "20181301" = Raise ValueError
  ∧ parse_timerange (Some ("20181301" +:+ "-" +:+ "")) = Raise ValueError.
Proof.
  split; [reflexivity|].
  refine (proj1 (timerange_date_error_propagates
                   "20181301" "" "" ValueError _ _ _ _ _)); reflexivity.
Defined.

(** X6: in every resolved time range a start value of kind [line] is not
    negative, a stop value of kind [line] is not positive, and the two
    values of kind [index] are not negative. *)
Theorem timerange_value_signs (text : string) (tr : TimeRange) :
  parse_timerange (Some text) = Ok tr →
  (starttype tr = Some "line" → (0 ≤ startts tr)%Z)
  ∧ (stoptype tr = Some "line" → (stopts tr ≤ 0)%Z)
  ∧ (starttype tr = Some "index" → (0 ≤ startts tr)%Z ∧ (0 ≤ stopts tr)%Z).
Proof.
  intros Hok.
  destruct (parse_timerange_shape text) as (a & b & r & -> & Ha & Hb & Hr & Ht);
    [by rewrite Hok|].
  rewrite Ht in Hok; clear Ht.
  pose proof (digits_value_nonneg a Ha). pose proof (digits_value_nonneg b Hb).
  unfold timerange_table, read_digits in Hok. unfold_result.
  repeat case_match; simplify_eq/=; split_and!; intros; simplify_eq; lia.
Qed.

Lemma timerange_value_signs_witness :
  parse_timerange (Some "-100") = Ok (mkTimeRange None (Some "line") 0 (-100))
  ∧ (-100 ≤ 0)%Z.
Proof.
  assert (H : parse_timerange (Some "-100")
              = Ok (mkTimeRange None (Some "line") 0 (-100))) by reflexivity.
  split; [exact H|].
  exact (proj1 (proj2 (timerange_value_signs "-100" _ H)) eq_refl).
Defined.

(** X7: in every resolved time range the start kind is [None] exactly when
    the side before the dash is empty, and the stop kind is [None] exactly
    when the side after the dash is empty; no present text resolves to a
    range with both kinds [None]. *)
Theorem timerange_kinds_follow_sides (text : string) (tr : TimeRange) :
  parse_timerange (Some text) = Ok tr →
  ∃ a b r, text = a +:+ "-" +:+ b +:+ r
    ∧ all_digits a = true ∧ all_digits b = true ∧ at_end r = true
    ∧ (starttype tr = None ↔ a = "")
    ∧ (stoptype tr = None ↔ b = "")
    ∧ ¬ (starttype tr = None ∧ stoptype tr = None).
Proof.
  intros Hok.
  destruct (parse_timerange_shape text) as (a & b & r & -> & Ha & Hb & Hr & Ht);
    [by rewrite Hok|].
  exists a, b, r. split_and!; try done.
  all: rewrite Ht in Hok; clear Ht; unfold timerange_table in Hok;
    unfold_result;
    destruct (String.length a =? 0) eqn:A0, (String.length b =? 0) eqn:B0;
    eqb_to_prop;
    try (apply length_0_empty in A0 as ->);
    try (apply length_0_empty in B0 as ->);
    try (apply length_pos_nonempty in A0);
    try (apply length_pos_nonempty in B0);
    repeat case_match; simplify_eq/=; try done; try by intros [? ?].
Qed.

Lemma timerange_kinds_follow_sides_witness :
  parse_timerange (Some "100-") = Ok (mkTimeRange (Some "line") None 100 0)
  ∧ ∃ a b r, "100-" = a +:+ "-" +:+ b +:+ r ∧ b = "".
Proof.
  assert (H : parse_timerange (Some "100-")
              = Ok (mkTimeRange (Some "line") None 100 0)) by reflexivity.
  split; [exact H|].
  destruct (timerange_kinds_follow_sides "100-" _ H)
    as (a & b & r & E & _ & _ & _ & _ & Hb & _).
  exists a, b, r. split; [exact E|]. by apply Hb.
Defined.

(** * Further properties of the validator *)

Lemma int_exn (s : string) (e : exn) : int s = Raise e → e = ValueError.
Proof. unfold int. intros H. repeat case_match; congruence. Qed.

(** X8: whatever [check_int_positive] returns is positive and is what
    [int] reads from the raw value; the only exception it raises is the
    [ArgumentTypeError] that names the raw value, and it raises it exactly
    when [int] fails or reads an integer that is not positive: no
    [ValueError] escapes. *)
Theorem check_int_positive_outcome (value : string) :
  match check_int_positive value with
  | Ok n => (0 < n)%Z ∧ int value = Ok n
  | Raise e =>
      e = invalid_positive value
      ∧ (int value = Raise ValueError ∨ ∃ n, int value = Ok n ∧ (n ≤ 0)%Z)
  end.
Proof.
  pose proof (int_exn value) as Hexn.
  unfold check_int_positive. unfold_result.
  destruct (int value) as [n|e]; simpl.
  - destruct (Z.leb_spec n 0); simpl; [|by auto].
    split; [done|]. right. by exists n.
  - rewrite (Hexn e eq_refl). simpl. auto.
Qed.

Lemma lstrip_blank_app (ws s : string) :
  all_blank ws = true → lstrip (ws +:+ s) = lstrip s.
Proof.
  induction ws as [|c ws IH]; [done|]. simpl.
  intros [-> Hws]%andb_prop. auto.
Qed.

Lemma rstrip_blank (ws : string) : all_blank ws = true → rstrip ws = "".
Proof.
  induction ws as [|c ws IH]; [done|]. simpl.
  intros [-> Hws]%andb_prop. by rewrite IH.
Qed.

Lemma rstrip_app_blank (s ws : string) :
  all_blank ws = true → rstrip (s +:+ ws) = rstrip s.
Proof.
  intros Hws. induction s as [|c s IH]; simpl.
  - by apply rstrip_blank.
  - by rewrite IH.
Qed.

Lemma lstrip_app (s t : string) :
  lstrip (s +:+ t) = match lstrip s with
                     | EmptyString => lstrip t
                     | r => r +:+ t
                     end.
Proof.
  induction s as [|c s IH]; simpl.
  - by destruct (lstrip t).
  - by destruct (int_isspace c).
Qed.

Lemma lstrip_all_blank (ws : string) : all_blank ws = true → lstrip ws = "".
Proof.
  induction ws as [|c ws IH]; [done|]. simpl.
  intros [-> Hws]%andb_prop. auto.
Qed.

Lemma int_blank_padding (ws1 s ws2 : string) :
  all_blank ws1 = true → all_blank ws2 = true →
  int (ws1 +:+ s +:+ ws2) = int s.
Proof.
  intros H1 H2. unfold int.
  rewrite lstrip_blank_app by done. rewrite lstrip_app.
  destruct (lstrip s) as [|c r] eqn:E.
  - by rewrite lstrip_all_blank.
  - by rewrite rstrip_app_blank.
Qed.

(** X9: white space around the raw value is ignored: with any run of
    blanks before and after it the value is read as the same integer, and
    [check_int_positive] returns an integer for the padded value exactly
    when it returns that integer for the value itself. *)
Theorem check_int_positive_blank_padding (ws1 value ws2 : string) (n : Z) :
  all_blank ws1 = true → all_blank ws2 = true →
  int (ws1 +:+ value +:+ ws2) = int value
  ∧ (check_int_positive (ws1 +:+ value +:+ ws2) = Ok n
     ↔ check_int_positive value = Ok n).
Proof.
  intros H1 H2. pose proof (int_blank_padding ws1 value ws2 H1 H2) as Hint.
  split; [done|].
  unfold check_int_positive. rewrite Hint. unfold_result.
  destruct (int value) as [m|[]]; simpl; try done.
  by destruct (m <=? 0)%Z.
Qed.

Lemma check_int_positive_blank_padding_witness :
  check_int_positive (" " +:+ "7" +:+ newline) = Ok 7%Z
  ↔ check_int_positive "7" = Ok 7%Z.
Proof.
  refine (proj2 (check_int_positive_blank_padding " " "7" newline 7 _ _));
    reflexivity.
Defined.

(** * Further properties of the facade *)

Lemma run_occurrences_untouched p subs k x occs ns ns' :
  subparsers p = Some ("subparser", subs) →
  Forall (λ o, ¬ touches k o) occs →
  ns !! k = Some x →
  run_occurrences p ns occs = Ok ns' → ns' !! k = Some x.
Proof.
  intros Hsub Hocc. revert ns.
  induction Hocc as [|o occs Ho _ IH]; intros ns Hk; cbn [run_occurrences].
  - by intros [= <-].
  - unfold_result. destruct (run_occurrence p ns o) as [ns1|e] eqn:Hstep; [|done].
    apply IH. destruct o as [a v|sp]; simpl in Ho, Hstep.
    + unfold apply_action in Hstep.
      repeat case_match; simplify_eq; by rewrite lookup_insert_ne.
    + rewrite Hsub in Hstep. simplify_eq.
      apply choose_subcommand_lookup_Some; [congruence | done].
Qed.

#[local] Opaque loaded_parser.

Section facade_more.
Context `{!Externals}.

Lemma get_parsed_arg_loaded_none (self : Arguments) (description : string) :
  parser self = loaded_parser description → parsed_arg self = None →
  get_parsed_arg self
  = (Raise (ArgumentError "conflicting option string"), self).
Proof.
  intros Hp Hnone. unfold get_parsed_arg. unfold_method.
  rewrite Hnone. rewrite (load_again self description Hp). reflexivity.
Qed.

(** X10: a call of [get_parsed_arg] that raises on a new instance caches
    nothing: [parsed_arg] stays [None], the schema stays loaded, and the
    next call on the instance does not parse again but raises the
    [ArgumentError] of the first option, whose strings are registered
    already, leaving the instance as it is. *)
Theorem get_parsed_arg_failure (args : list string) (description : string)
    (e : exn) (self : Arguments) :
  get_parsed_arg (Arguments_init args description) = (Raise e, self) →
  parsed_arg self = None
  ∧ trace self = [SchemaBuilt; ParserCalled]
  ∧ get_parsed_arg self
    = (Raise (ArgumentError "conflicting option string"), self).
Proof.
  unfold get_parsed_arg at 1. unfold_method.
  change (parsed_arg (Arguments_init args description)) with (@None Namespace).
  cbv beta iota. rewrite load_fresh.
  destruct (parse_args _) as [[ns|e'] s2] eqn:Hparse;
    apply parse_args_state in Hparse as ->; intros Hcall;
    [discriminate Hcall|].
  apply (f_equal snd) in Hcall. cbn [snd] in Hcall. subst self.
  split; [reflexivity|]. split; [reflexivity|].
  apply (get_parsed_arg_loaded_none _ description);
    [cbn [parser] | cbn [parsed_arg]]; reflexivity.
Qed.

(** X11: [parse_args] on a loaded instance changes no attribute other
    than [config]: the namespace it returns agrees on every other attribute
    with the one that [argparse] built from the recognised occurrences, it
    is that namespace when [config] was supplied, and an attribute that no
    recognised occurrence writes holds its default. *)
Theorem parse_args_keeps_default (self : Arguments) (description : string)
    (occs : list occurrence) (ns : Namespace) (self' : Arguments) :
  parser self = loaded_parser description →
  recognise (parser self) (args self) = Ok occs →
  parse_args self = (Ok ns, self') →
  ∃ ns0,
    run_occurrences (parser self) (initial_namespace (parser self)) occs
      = Ok ns0
    ∧ ArgumentParser_parse_args (parser self) (args self) = Ok ns0
    ∧ (∀ k, k ≠ "config" → ns !! k = ns0 !! k)
    ∧ (ns0 !! "config" ≠ Some VNone → ns = ns0)
    ∧ (∀ k x, k ≠ "config" →
         Forall (λ o, ¬ touches k o) occs →
         initial_namespace (parser self) !! k = Some x →
         ns !! k = Some x).
Proof.
  intros Hp Hrec.
  destruct (loaded_discipline description) as (_ & _ & subs & Hsub).
  rewrite <- Hp in Hsub.
  unfold parse_args, ArgumentParser_parse_args. unfold_method.
  rewrite Hrec. unfold_result. cbv beta iota.
  destruct (run_occurrences _ _ occs) as [ns0|e] eqn:Hrun;
    [|intros Hcall; discriminate Hcall].
  destruct (ns0 !! "config") as [c|] eqn:Hcfg;
    [|intros Hcall; discriminate Hcall].
  intros Hcall.
  assert (Hns : ns = match c with
                     | VNone => <["config" := VList [VStr DEFAULT_CONFIG]]> ns0
                     | _ => ns0
                     end).
  { destruct c; apply (f_equal fst) in Hcall; cbn [fst] in Hcall;
      injection Hcall as <-; reflexivity. }
  assert (Hother : ∀ k, k ≠ "config" → ns !! k = ns0 !! k).
  { intros k Hk. rewrite Hns. destruct c; try reflexivity.
    apply lookup_insert_ne. congruence. }
  exists ns0. split; [reflexivity|]. split; [reflexivity|].
  split; [exact Hother|]. split.
  - intros Hne. rewrite Hns. destruct c; try reflexivity.
    exfalso. exact (Hne Hcfg).
  - intros k x Hk Hocc Hinit. rewrite (Hother k Hk).
    exact (run_occurrences_untouched _ _ _ _ _ _ _ Hsub Hocc Hinit Hrun).
Qed.

(** X12: [parse_args] on an instance whose schema was never loaded returns
    no namespace: [--help] exits, and otherwise the namespace has no
    [config] attribute to normalise. *)
Theorem parse_args_unloaded (self : Arguments) (description : string)
    (occs : list occurrence) :
  parser self = ArgumentParser_new description →
  recognise (parser self) (args self) = Ok occs →
  Forall (valid_occurrence (parser self)) occs →
  ∃ self', parse_args self
           = (Raise (match occs with
                     | [] => Exception "AttributeError"
                     | _ => SystemExit
                     end), self').
Proof.
  intros Hp Hrec Hvalid.
  unfold parse_args, ArgumentParser_parse_args. unfold_method.
  rewrite Hrec. unfold_result. cbv beta iota. rewrite Hp in *.
  destruct Hvalid as [|o occs Ho _]; [by eexists|].
  destruct o as [a v|sp]; simpl in Ho.
  - apply list_elem_of_singleton in Ho as ->. by eexists.
  - by apply elem_of_nil in Ho.
Qed.

End facade_more.

Lemma get_parsed_arg_failure_witness :
  ∃ self,
    @get_parsed_arg sample_externals (Arguments_init ["--bogus"] "bot")
      = (Raise SystemExit, self)
    ∧ @get_parsed_arg sample_externals self
      = (Raise (ArgumentError "conflicting option string"), self).
Proof.
  destruct (@get_parsed_arg sample_externals (Arguments_init ["--bogus"] "bot"))
    as [r self] eqn:Hcall.
  assert (Hr : r = Raise SystemExit).
  { apply (f_equal fst) in Hcall. cbn [fst] in Hcall. rewrite <- Hcall.
    vm_compute. reflexivity. }
  subst r. exists self. split; [reflexivity|].
  exact (proj2 (proj2 (@get_parsed_arg_failure sample_externals
                         ["--bogus"] "bot" SystemExit self Hcall))).
Defined.

Lemma parse_args_keeps_default_witness :
  ∃ ns self',
    @parse_args sample_externals
      (mkArguments [] None (@loaded_parser sample_externals "bot") [SchemaBuilt])
      = (Ok ns, self')
    ∧ ns !! "strategy" = Some (VStr "DefaultStrategy").
Proof.
  pose (self := mkArguments [] None (@loaded_parser sample_externals "bot")
                  [SchemaBuilt]).
  assert (Hp : parser self = @loaded_parser sample_externals "bot")
    by (subst self; cbn [parser]; reflexivity).
  assert (Hrec : @recognise sample_externals (parser self) (args self) = Ok [])
    by (vm_compute; reflexivity).
  assert (Hinit : initial_namespace (parser self) !! "strategy"
                  = Some (VStr "DefaultStrategy"))
    by (vm_compute; reflexivity).
  assert (Hcall : ∃ ns self', @parse_args sample_externals self = (Ok ns, self')).
  { assert (Hok : match (@parse_args sample_externals self).1 with
                  | Ok _ => True
                  | Raise _ => False
                  end) by (vm_compute; exact I).
    destruct (@parse_args sample_externals self) as [[ns|e] self'];
      cbn [fst] in Hok; [|destruct Hok].
    exists ns, self'. reflexivity. }
  destruct Hcall as (ns & self' & Hcall). exists ns, self'.
  split; [exact Hcall|].
  assert (Hk : "strategy" ≠ "config") by discriminate.
  destruct (@parse_args_keeps_default sample_externals self "bot" [] ns self'
              Hp Hrec Hcall) as (ns0 & _ & _ & _ & _ & Hdefault).
  exact (Hdefault "strategy" _ Hk (Forall_nil_2 _) Hinit).
Defined.

Lemma parse_args_unloaded_witness :
  ∃ self', @parse_args sample_externals (Arguments_init [] "bot")
           = (Raise (Exception "AttributeError"), self').
Proof.
  assert (Hrec : @recognise sample_externals
                   (parser (Arguments_init [] "bot"))
                   (args (Arguments_init [] "bot")) = Ok [])
    by (vm_compute; reflexivity).
  exact (@parse_args_unloaded sample_externals (Arguments_init [] "bot") "bot"
           [] eq_refl Hrec (Forall_nil_2 _)).
Defined.

(** ** Registering runs of options *)

Lemma with_actions_same (self : Arguments) :
  with_actions self (actions (parser self)) = self.
Proof. by destruct self as [? ? [? ? ?] ?]. Qed.

Lemma parser_add_argument_eq (spec : Action) (self : Arguments) :
  parser_add_argument spec self
  = match add_action spec (actions (parser self)) with
    | Ok acts => (Ok (), with_actions self acts)
    | Raise e => (Raise e, self)
    end.
Proof.
  unfold parser_add_argument. unfold_method.
  by destruct (add_action spec (actions (parser self))).
Qed.

Lemma add_arguments_add_actions (specs : list Action) (self : Arguments) :
  add_arguments specs self
  = ((add_actions specs (actions (parser self))).1,
     with_actions self (add_actions specs (actions (parser self))).2).
Proof.
  revert self. induction specs as [|spec specs IH]; intros self.
  - simpl. by rewrite with_actions_same.
  - cbn [add_arguments add_actions].
    change ((parser_add_argument spec;; add_arguments specs) self)
      with (match parser_add_argument spec self with
            | (Ok _, self') => add_arguments specs self'
            | (Raise e, self') => (Raise e, self')
            end).
    rewrite parser_add_argument_eq.
    destruct (add_action spec (actions (parser self))) as [acts|e].
    + by rewrite IH.
    + simpl. by rewrite with_actions_same.
Qed.

Lemma registered_strings_snoc (acts : list Action) (spec : Action) :
  registered_strings (acts ++ [spec])
  = registered_strings acts ++ option_strings spec.
Proof.
  unfold registered_strings. rewrite bind_app. simpl. by rewrite app_nil_r.
Qed.

Lemma add_actions_disjoint (specs acts : list Action) :
  NoDup (registered_strings specs) →
  Forall (λ o, o ∉ registered_strings acts) (registered_strings specs) →
  add_actions specs acts = (Ok (), acts ++ specs).
Proof.
  revert acts. induction specs as [|spec specs IH]; intros acts Hnd Hdis.
  - simpl. by rewrite app_nil_r.
  - change (registered_strings (spec :: specs))
      with (option_strings spec ++ registered_strings specs) in Hnd, Hdis.
    apply NoDup_app in Hnd as (_ & Hcross & Hnd).
    apply Forall_app in Hdis as [Hspec Hrest].
    cbn [add_actions]. unfold add_action, conflicts.
    rewrite bool_decide_eq_false_2; last first.
    { intros Hex. apply Exists_exists in Hex as (o & Ho & Hin).
      rewrite Forall_forall in Hspec. by apply (Hspec o). }
    rewrite IH; [by rewrite <- app_assoc | done |].
    rewrite Forall_forall in Hrest |- *. intros o Ho.
    rewrite registered_strings_snoc. intros [Hin|Hin]%elem_of_app.
    + by apply (Hrest o).
    + by apply (Hcross o).
Qed.

Lemma add_actions_conflict (specs acts : list Action) :
  Exists (λ o, o ∈ registered_strings acts) (registered_strings specs) →
  ∃ acts', add_actions specs acts
           = (Raise (ArgumentError "conflicting option string"), acts').
Proof.
  revert acts. induction specs as [|spec specs IH]; intros acts Hex.
  - by apply Exists_nil in Hex.
  - cbn [add_actions]. unfold add_action, conflicts.
    case_bool_decide as Hc; [by eexists|].
    apply IH.
    change (registered_strings (spec :: specs))
      with (option_strings spec ++ registered_strings specs) in Hex.
    apply Exists_app in Hex as [Hex|Hex]; [done|].
    apply Exists_exists in Hex as (o & Ho & Hin).
    apply Exists_exists. exists o. split; [done|].
    rewrite registered_strings_snoc. apply elem_of_app. by left.
Qed.

(** X13: [testdata_dl_options] registers its seven options after those of
    the parser when none of its option strings is registered yet, and
    raises [ArgumentError] when one of them is: in particular it cannot
    follow [common_args_parser], which registers [-c/--config] too. *)
Theorem testdata_dl_options_outcome (self : Arguments) :
  (Forall (λ o, o ∉ registered_strings (actions (parser self)))
     (registered_strings testdata_dl_specs) →
   testdata_dl_options self
   = (Ok (), with_actions self (actions (parser self) ++ testdata_dl_specs)))
  ∧ (Exists (λ o, o ∈ registered_strings (actions (parser self)))
       (registered_strings testdata_dl_specs) →
     ∃ self', testdata_dl_options self
              = (Raise (ArgumentError "conflicting option string"), self'))
  ∧ ("--config" ∈ registered_strings (actions (parser self)) →
     ∃ self', testdata_dl_options self
              = (Raise (ArgumentError "conflicting option string"), self')).
Proof.
  unfold testdata_dl_options. rewrite add_arguments_add_actions.
  assert (Hex : Exists (λ o, o ∈ registered_strings (actions (parser self)))
                  (registered_strings testdata_dl_specs) →
                ∃ self', ((add_actions testdata_dl_specs (actions (parser self))).1,
                          with_actions self
                            (add_actions testdata_dl_specs (actions (parser self))).2)
                = (Raise (ArgumentError "conflicting option string"), self')).
  { intros Hex. apply add_actions_conflict in Hex as [acts' ->]. by eexists. }
  split_and!; [|exact Hex|].
  - intros Hdis. rewrite add_actions_disjoint; [done| |done].
    apply (bool_decide_unpack _). vm_compute. exact I.
  - intros Hc. apply Hex. apply Exists_exists. exists "--config".
    split; [|done]. apply (bool_decide_unpack _). vm_compute. exact I.
Qed.

(** X14: [scripts_options] registers [-p/--pairs] after the options of the
    parser when neither string is registered yet, and otherwise raises
    [ArgumentError] and leaves the instance as it is. *)
Theorem scripts_options_outcome (self : Arguments) :
  ("-p" ∉ registered_strings (actions (parser self)) →
   "--pairs" ∉ registered_strings (actions (parser self)) →
   scripts_options self
   = (Ok (), with_actions self (actions (parser self) ++ scripts_specs)))
  ∧ ("-p" ∈ registered_strings (actions (parser self))
     ∨ "--pairs" ∈ registered_strings (actions (parser self)) →
     scripts_options self
     = (Raise (ArgumentError "conflicting option string"), self)).
Proof.
  unfold scripts_options. rewrite add_arguments_add_actions.
  cbn [add_actions scripts_specs]. unfold add_action, conflicts.
  cbn [option_strings]. split.
  - intros Hp Hpairs. rewrite bool_decide_eq_false_2; [done|].
    intros [?|[?|?%Exists_nil]%Exists_cons]%Exists_cons; done.
  - intros Hin. rewrite bool_decide_eq_true_2.
    + simpl. by rewrite with_actions_same.
    + destruct Hin; [by left | right; by left].
Qed.

Lemma testdata_dl_options_outcome_witness :
  testdata_dl_options (Arguments_init [] "dl")
  = (Ok (), with_actions (Arguments_init [] "dl")
              (actions (parser (Arguments_init [] "dl")) ++ testdata_dl_specs))
  ∧ ∃ self',
      testdata_dl_options
        (@common_args_parser sample_externals (Arguments_init [] "dl")).2
      = (Raise (ArgumentError "conflicting option string"), self').
Proof.
  split.
  - apply (proj1 (testdata_dl_options_outcome (Arguments_init [] "dl"))).
    apply (bool_decide_unpack _). vm_compute. exact I.
  - apply (proj2 (proj2 (testdata_dl_options_outcome _))).
    apply (bool_decide_unpack _). vm_compute. exact I.
Defined.

Lemma scripts_options_outcome_witness :
  let self := (@common_args_parser sample_externals (Arguments_init [] "plot")).2 in
  scripts_options self
  = (Ok (), with_actions self (actions (parser self) ++ scripts_specs)).
Proof.
  intros self.
  apply (proj1 (scripts_options_outcome self));
    apply (bool_decide_unpack _); vm_compute; exact I.
Defined.

(** ** Counting and appending *)

(** One occurrence adds to [loglevel] the number of values it supplies to
    it. *)
Lemma run_occurrence_loglevel p subs o n ns ns' :
  subparsers p = Some ("subparser", subs) →
  forallb dest_discipline (all_actions p) = true →
  valid_occurrence p o →
  ns !! "loglevel" = Some (VInt n) →
  run_occurrence p ns o = Ok ns' →
  ns' !! "loglevel"
  = Some (VInt (n + Z.of_nat (length (supplied "loglevel" [o])))).
Proof.
  intros Hsub Hdisc Hvalid Hlog.
  destruct o as [a v|sp]; simpl.
  - simpl in Hvalid.
    rewrite forallb_forall in Hdisc. apply list_elem_of_In, Hdisc in Hvalid.
    unfold dest_discipline in Hvalid.
    apply andb_prop in Hvalid as [_ Hl%bool_decide_eq_true].
    unfold apply_action. destruct (kind a) eqn:K.
    4: { assert (dest a = "loglevel") as -> by by apply Hl.
         rewrite Hlog. intros [= <-].
         rewrite bool_decide_eq_true_2 by done.
         rewrite lookup_insert_eq. simpl.
         first [reflexivity | do 2 f_equal; lia]. }
    all: assert (dest a ≠ "loglevel") by (intros E; by apply Hl in E);
      rewrite bool_decide_eq_false_2 by done; simpl; rewrite Z.add_0_r;
      intros Hstep; repeat case_match; simplify_eq;
      by rewrite lookup_insert_ne.
  - rewrite Hsub. intros [= <-]. rewrite Z.add_0_r.
    by apply choose_subcommand_lookup_Some.
Qed.

Lemma run_occurrences_loglevel p subs occs n ns ns' :
  subparsers p = Some ("subparser", subs) →
  forallb dest_discipline (all_actions p) = true →
  Forall (valid_occurrence p) occs →
  ns !! "loglevel" = Some (VInt n) →
  run_occurrences p ns occs = Ok ns' →
  ns' !! "loglevel"
  = Some (VInt (n + Z.of_nat (length (supplied "loglevel" occs)))).
Proof.
  intros Hsub Hdisc Hvalid. revert n ns.
  induction Hvalid as [|o occs Ho _ IH]; intros n ns Hlog;
    cbn [run_occurrences].
  - intros [= <-]. change (supplied "loglevel" []) with (@nil pyval).
    simpl. by rewrite Z.add_0_r.
  - unfold_result.
    destruct (run_occurrence p ns o) as [ns1|e] eqn:Hstep; [|done].
    intros Hrun.
    pose proof (run_occurrence_loglevel _ _ _ _ _ _ Hsub Hdisc Ho Hlog Hstep)
      as Hlog1.
    rewrite (IH _ _ Hlog1 Hrun), (supplied_cons "loglevel" o occs), length_app.
    by rewrite Nat2Z.inj_add, Z.add_assoc.
Qed.

Lemma run_occurrence_append p o vs ns :
  subparsers p = None →
  forallb append_discipline (actions p) = true →
  valid_occurrence p o →
  ns !! "config" = Some (append_value vs) →
  match run_occurrence p ns o with
  | Ok ns' =>
      ns' !! "config" = Some (append_value (vs ++ supplied "config" [o]))
      ∧ ¬ exits o
  | Raise e => e = SystemExit ∧ exits o
  end.
Proof.
  intros Hsub Hdisc Hvalid Hconfig.
  destruct o as [a v|sp]; simpl in *.
  - unfold all_actions in Hvalid. rewrite Hsub, app_nil_r in Hvalid.
    rewrite forallb_forall in Hdisc. apply list_elem_of_In, Hdisc in Hvalid.
    unfold append_discipline in Hvalid.
    apply andb_prop in Hvalid as [Hc%bool_decide_eq_true Hn%bool_decide_eq_true].
    unfold apply_action. destruct (kind a) eqn:K; try done.
    1-3: assert (dest a ≠ "config") by (intros E; by apply Hc in E);
      rewrite bool_decide_eq_false_2 by done;
      rewrite app_nil_r, lookup_insert_ne by done;
      (split; [done | by intros [|]]).
    + assert (dest a = "config") as -> by by apply Hc.
      rewrite Hconfig, bool_decide_eq_true_2 by done.
      destruct vs as [|v0 vs]; simpl; rewrite lookup_insert_eq;
        (split; [done | by intros [|]]).
    + auto.
    + auto.
  - unfold registered_subparsers in Hvalid. rewrite Hsub in Hvalid.
    by apply elem_of_nil in Hvalid.
Qed.

Lemma run_occurrences_append p occs vs ns :
  subparsers p = None →
  forallb append_discipline (actions p) = true →
  Forall (valid_occurrence p) occs →
  ns !! "config" = Some (append_value vs) →
  match run_occurrences p ns occs with
  | Ok ns' =>
      ns' !! "config" = Some (append_value (vs ++ supplied "config" occs))
      ∧ ¬ Exists exits occs
  | Raise e => e = SystemExit ∧ Exists exits occs
  end.
Proof.
  intros Hsub Hdisc Hvalid. revert vs ns.
  induction Hvalid as [|o occs Ho Hoccs IH]; intros vs ns Hinv;
    cbn [run_occurrences].
  - change (supplied "config" []) with (@nil pyval). rewrite app_nil_r.
    split; [done | by intros ?%Exists_nil].
  - pose proof (run_occurrence_append p o vs ns Hsub Hdisc Ho Hinv) as Hstep.
    unfold_result. destruct (run_occurrence p ns o) as [ns'|e].
    + destruct Hstep as [Hinv' Hno].
      specialize (IH _ _ Hinv').
      destruct (run_occurrences p ns' occs) as [ns''|e].
      * rewrite supplied_cons, app_assoc.
        split; [apply IH | intros [?|?]%Exists_cons; [done | by apply IH]].
      * split; [apply IH | right; apply IH].
    + split; [apply Hstep | left; apply Hstep].
Qed.

Section facade_counting.
Context `{!Externals}.

(** X15: in the namespace that [parse_args] returns on a loaded instance,
    [loglevel] is the number of recognised occurrences of [-v/--verbose]. *)
Theorem parse_args_loglevel (self : Arguments) (description : string)
    (occs : list occurrence) (ns : Namespace) (self' : Arguments) :
  parser self = loaded_parser description →
  recognise (parser self) (args self) = Ok occs →
  Forall (valid_occurrence (parser self)) occs →
  parse_args self = (Ok ns, self') →
  ns !! "loglevel"
  = Some (VInt (Z.of_nat (length (supplied "loglevel" occs)))).
Proof.
  intros Hp Hrec Hvalid.
  destruct (loaded_discipline description) as (Hdisc & _ & subs & Hsub).
  assert (Hlog : initial_namespace (loaded_parser description) !! "loglevel"
                 = Some (VInt 0)) by (vm_compute; reflexivity).
  rewrite <- Hp in Hdisc, Hsub, Hlog.
  unfold parse_args, ArgumentParser_parse_args. unfold_method.
  rewrite Hrec. unfold_result. cbv beta iota.
  destruct (run_occurrences _ _ occs) as [ns0|e] eqn:Hrun; [|done].
  pose proof (run_occurrences_loglevel _ _ _ _ _ _ Hsub Hdisc Hvalid Hlog Hrun)
    as Hk0.
  rewrite Z.add_0_l in Hk0.
  repeat case_match; intros [= <- <-]; [|done..].
  by rewrite lookup_insert_ne.
Qed.

Lemma download_discipline (d : string) :
  subparsers (download_parser d) = None
  ∧ forallb append_discipline (actions (download_parser d)) = true
  ∧ initial_namespace (download_parser d) !! "config" = Some VNone.
Proof. split_and!; vm_compute; reflexivity. Qed.

(** X16: the normalisation of [config] also holds for the parser of the
    download script (a new instance with [testdata_dl_options]):
    [parse_args] either exits on [--help] or returns a namespace whose
    [config] is the list of the supplied values in order, or the
    one-element list of the default config path when none was supplied. *)
Theorem parse_args_config_download (self : Arguments) (description : string)
    (occs : list occurrence) :
  parser self = download_parser description →
  recognise (parser self) (args self) = Ok occs →
  Forall (valid_occurrence (parser self)) occs →
  ∃ r self', parse_args self = (r, self') ∧
    match r with
    | Ok ns =>
        ¬ Exists exits occs ∧
        ns !! "config" =
          Some (VList (match supplied "config" occs with
                       | [] => [VStr DEFAULT_CONFIG]
                       | vs => vs
                       end))
    | Raise e => e = SystemExit ∧ Exists exits occs
    end.
Proof.
  intros Hp Hrec Hvalid.
  destruct (download_discipline description) as (Hsub & Hdisc & Hinit).
  rewrite <- Hp in Hsub, Hdisc, Hinit.
  pose proof (run_occurrences_append _ _ [] _ Hsub Hdisc Hvalid Hinit) as Hrun.
  unfold parse_args, ArgumentParser_parse_args. unfold_method.
  rewrite Hrec. unfold_result. cbv beta iota.
  destruct (run_occurrences _ _ occs) as [ns|e]; [|by eauto].
  destruct Hrun as [Hconfig Hno]. rewrite app_nil_l in Hconfig.
  rewrite Hconfig.
  destruct (supplied "config" occs) as [|v vs]; simpl.
  - eexists _, _. split; [reflexivity|].
    split; [exact Hno | apply lookup_insert_eq].
  - eexists _, _. split; [reflexivity|].
    split; [exact Hno | exact Hconfig].
Qed.

End facade_counting.

#[local] Opaque download_parser.

Lemma parse_args_loglevel_witness :
  ∃ ns self',
    @parse_args sample_externals
      (mkArguments [] None (@loaded_parser sample_externals "bot") [SchemaBuilt])
      = (Ok ns, self')
    ∧ ns !! "loglevel" = Some (VInt 0).
Proof.
  pose (self := mkArguments [] None (@loaded_parser sample_externals "bot")
                  [SchemaBuilt]).
  assert (Hp : parser self = @loaded_parser sample_externals "bot")
    by (subst self; cbn [parser]; reflexivity).
  assert (Hrec : @recognise sample_externals (parser self) (args self) = Ok [])
    by (vm_compute; reflexivity).
  assert (Hcall : ∃ ns self', @parse_args sample_externals self = (Ok ns, self')).
  { assert (Hok : match (@parse_args sample_externals self).1 with
                  | Ok _ => True
                  | Raise _ => False
                  end) by (vm_compute; exact I).
    destruct (@parse_args sample_externals self) as [[ns|e] self'];
      cbn [fst] in Hok; [|destruct Hok].
    exists ns, self'. reflexivity. }
  destruct Hcall as (ns & self' & Hcall). exists ns, self'.
  split; [exact Hcall|].
  exact (@parse_args_loglevel sample_externals self "bot" [] ns self'
           Hp Hrec (Forall_nil_2 _) Hcall).
Defined.

Lemma parse_args_config_download_witness :
  let self := mkArguments ["-c"; "x.json"] None
                (download_parser "dl") [] in
  let occs := [Opt config_action (VStr "x.json")] in
  @recognise sample_externals (parser self) (args self) = Ok occs
  ∧ Forall (valid_occurrence (parser self)) occs
  ∧ ∃ ns self', @parse_args sample_externals self = (Ok ns, self')
      ∧ ns !! "config" = Some (VList [VStr "x.json"]).
Proof.
  intros self occs.
  assert (Hrec : @recognise sample_externals (parser self) (args self) = Ok occs)
    by (vm_compute; reflexivity).
  assert (Hin : config_action ∈ all_actions (parser self)).
  { apply list_elem_of_lookup. exists 3. vm_compute. reflexivity. }
  assert (Hvalid : Forall (valid_occurrence (parser self)) occs).
  { constructor; [exact Hin|]. constructor. }
  split; [exact Hrec|]. split; [exact Hvalid|].
  assert (Hp : parser self = download_parser "dl")
    by (subst self; cbn [parser]; reflexivity).
  pose proof (@parse_args_config_download sample_externals self "dl" occs
                Hp Hrec Hvalid) as (r & self' & Hparse & Hr).
  destruct r as [ns|e].
  - exists ns, self'. split; [exact Hparse|]. exact (proj2 Hr).
  - destruct Hr as [_ Hex]. exfalso. clear -Hex. subst occs.
    apply Exists_cons in Hex as [[Hk|Hk]|Hex]; try discriminate Hk.
    exact (proj1 (Exists_nil _) Hex).
Defined.

(** ** The subcommand and its handler *)

Lemma apply_action_lookup_ne a v (ns ns' : Namespace) k :
  dest a ≠ k → apply_action a v ns = Ok ns' → ns' !! k = ns !! k.
Proof.
  intros Hk. unfold apply_action.
  repeat case_match; intros; simplify_eq; by rewrite lookup_insert_ne.
Qed.

Lemma set_default_lookup_ne (ns : Namespace) d v k :
  d ≠ k → set_default ns d v !! k = ns !! k.
Proof.
  intros Hk. unfold set_default. destruct (ns !! d); [done|].
  by rewrite lookup_insert_ne.
Qed.

Lemma action_defaults_lookup_ne acts (ns : Namespace) k :
  Forall (λ a, dest a ≠ k) acts → action_defaults acts ns !! k = ns !! k.
Proof.
  unfold action_defaults. intros Hacts. revert ns.
  induction Hacts as [|a acts Ha _ IH]; intros ns; simpl; [done|].
  rewrite IH. destruct (kind a); auto using set_default_lookup_ne.
Qed.

Lemma set_defaults_assoc kvs (ns : Namespace) k :
  ns !! k = None →
  foldl (λ ns kv, set_default ns kv.1 kv.2) ns kvs !! k = assoc k kvs.
Proof.
  revert ns. induction kvs as [|[k' v] kvs IH]; intros ns Hk; simpl; [done|].
  destruct (String.eqb_spec k k') as [<-|Hne].
  - assert (set_default ns k v !! k = Some v) as Hset.
    { unfold set_default. rewrite Hk. apply lookup_insert_eq. }
    clear IH. revert Hset. generalize (set_default ns k v).
    induction kvs as [|kv kvs IH]; intros m Hm; simpl; [done|].
    apply IH. by apply set_default_lookup_Some.
  - apply IH. rewrite set_default_lookup_ne; [done | congruence].
Qed.

Lemma sub_actions_all_actions p d subs sp a :
  subparsers p = Some (d, subs) → sp ∈ subs → a ∈ sub_actions sp →
  a ∈ all_actions p.
Proof.
  intros Hsub Hsp Ha. unfold all_actions. rewrite Hsub.
  apply elem_of_app. right. apply list_elem_of_bind. by exists sp.
Qed.

(** Options that are not stored under [k] leave the attribute [k] as it
    is. *)
Lemma run_options_lookup p occs k (ns ns' : Namespace) :
  forallb (λ a, bool_decide (dest a ≠ k)) (all_actions p) = true →
  Forall (valid_occurrence p) occs → Forall is_option occs →
  run_occurrences p ns occs = Ok ns' → ns' !! k = ns !! k.
Proof.
  intros Hdisc Hvalid. revert ns.
  induction Hvalid as [|o occs Ho _ IH]; intros ns Hopt;
    cbn [run_occurrences].
  - by intros [= <-].
  - apply Forall_cons in Hopt as [Hopt1 Hopt].
    unfold_result.
    destruct (run_occurrence p ns o) as [ns1|e] eqn:Hstep; [|done].
    intros Hrun. rewrite (IH _ Hopt Hrun).
    destruct o as [a v|sp]; [|done]. simpl in Ho, Hstep.
    rewrite forallb_forall in Hdisc. apply list_elem_of_In, Hdisc in Ho.
    apply bool_decide_eq_true in Ho.
    by apply (apply_action_lookup_ne a v).
Qed.

Lemma forallb_command_discipline p :
  forallb command_discipline (all_actions p) = true →
  forallb (λ a, bool_decide (dest a ≠ "func")) (all_actions p) = true
  ∧ forallb (λ a, bool_decide (dest a ≠ "subparser")) (all_actions p) = true.
Proof.
  rewrite !forallb_forall. intros H.
  split; intros a Ha; apply H, andb_prop in Ha as [? ?]; done.
Qed.

(** The namespace after the options [pre], the subcommand [sp] and the
    options [post]. *)
Lemma run_subcommand p subs pre sp post (ns ns' : Namespace) :
  subparsers p = Some ("subparser", subs) →
  forallb command_discipline (all_actions p) = true →
  Forall (valid_occurrence p) (pre ++ Sub sp :: post) →
  Forall is_option pre → Forall is_option post →
  ns !! "func" = None →
  run_occurrences p ns (pre ++ Sub sp :: post) = Ok ns' →
  ns' !! "subparser" = Some (VStr (sub_name sp))
  ∧ ns' !! "func" = assoc "func" (sub_defaults sp).
Proof.
  intros Hsub [Hfunc Hsubp]%forallb_command_discipline Hvalid Hpre Hpost Hnone.
  apply Forall_app in Hvalid as [Hvpre Hvrest].
  apply Forall_cons in Hvrest as [Hvsp Hvpost].
  simpl in Hvsp. unfold registered_subparsers in Hvsp. rewrite Hsub in Hvsp.
  assert (Hrun_app : ∀ l1 l2 m,
    run_occurrences p m (l1 ++ l2)
    = (m1 ← run_occurrences p m l1; run_occurrences p m1 l2)).
  { induction l1 as [|o l1 IH]; intros l2 m; [done|].
    cbn [app run_occurrences]. unfold_result.
    destruct (run_occurrence p m o); [apply IH | done]. }
  rewrite Hrun_app. unfold_result.
  destruct (run_occurrences p ns pre) as [ns1|e] eqn:Hrun1; [|done].
  cbn [run_occurrences run_occurrence]. rewrite Hsub. unfold_result.
  intros Hrun2.
  pose proof (run_options_lookup _ _ "func" _ _ Hfunc Hvpre Hpre Hrun1) as Hf1.
  rewrite (run_options_lookup _ _ "func" _ _ Hfunc Hvpost Hpost Hrun2).
  rewrite (run_options_lookup _ _ "subparser" _ _ Hsubp Hvpost Hpost Hrun2).
  unfold choose_subcommand. split.
  - assert (∀ kvs (m : Namespace) x, m !! "subparser" = Some x →
      foldl (λ ns kv, set_default ns kv.1 kv.2) m kvs !! "subparser" = Some x)
      as Hfold.
    { induction kvs as [|kv kvs IH]; intros m x Hm; simpl; [done|].
      apply IH. by apply set_default_lookup_Some. }
    apply Hfold, action_defaults_lookup_Some, lookup_insert_eq.
  - rewrite set_defaults_assoc; [done|].
    rewrite action_defaults_lookup_ne.
    + rewrite lookup_insert_ne by done. by rewrite Hf1.
    + apply Forall_forall. intros a Ha.
      pose proof (sub_actions_all_actions _ _ _ _ _ Hsub Hvsp Ha) as Hall.
      rewrite forallb_forall in Hfunc. apply list_elem_of_In, Hfunc in Hall.
      by apply bool_decide_eq_true in Hall.
Qed.

Section facade_commands.
Context `{!Externals}.

Lemma loaded_commands (d : string) :
  forallb command_discipline (all_actions (loaded_parser d)) = true
  ∧ initial_namespace (loaded_parser d) !! "func" = None
  ∧ (λ sp, (sub_name sp, assoc "func" (sub_defaults sp)))
      <$> registered_subparsers (loaded_parser d)
    = [("backtesting", Some (VFunc "backtesting.start"));
       ("edge", Some (VFunc "edge_cli.start"));
       ("hyperopt", Some (VFunc "hyperopt.start"))].
Proof. split_and!; vm_compute; reflexivity. Qed.

(** X17: when the recognised occurrences are options, one subcommand and
    options again, the namespace that [parse_args] returns on a loaded
    instance holds the name of the subcommand under [subparser] and under
    [func] the handler that [_build_subcommands] bound to it:
    [backtesting.start], [edge_cli.start] or [hyperopt.start]. *)
Theorem parse_args_subcommand (self : Arguments) (description : string)
    (pre post : list occurrence) (sp : SubParser)
    (ns : Namespace) (self' : Arguments) :
  parser self = loaded_parser description →
  recognise (parser self) (args self) = Ok (pre ++ Sub sp :: post) →
  Forall (valid_occurrence (parser self)) (pre ++ Sub sp :: post) →
  Forall is_option pre → Forall is_option post →
  parse_args self = (Ok ns, self') →
  ns !! "subparser" = Some (VStr (sub_name sp))
  ∧ ns !! "func" = assoc "func" (sub_defaults sp)
  ∧ (sub_name sp, ns !! "func")
    ∈ [("backtesting", Some (VFunc "backtesting.start"));
       ("edge", Some (VFunc "edge_cli.start"));
       ("hyperopt", Some (VFunc "hyperopt.start"))].
Proof.
  intros Hp Hrec Hvalid Hpre Hpost.
  destruct (loaded_discipline description) as (_ & _ & subs & Hsub).
  destruct (loaded_commands description) as (Hdisc & Hnone & Hhandlers).
  rewrite <- Hp in Hsub, Hdisc, Hnone, Hhandlers.
  unfold parse_args, ArgumentParser_parse_args. unfold_method.
  rewrite Hrec. unfold_result. cbv beta iota.
  destruct (run_occurrences _ _ _) as [ns0|e] eqn:Hrun; [|done].
  destruct (run_subcommand _ _ _ _ _ _ _ Hsub Hdisc Hvalid Hpre Hpost Hnone Hrun)
    as [Hname Hfunc].
  assert (Hin : (sub_name sp, ns0 !! "func")
    ∈ [("backtesting", Some (VFunc "backtesting.start"));
       ("edge", Some (VFunc "edge_cli.start"));
       ("hyperopt", Some (VFunc "hyperopt.start"))]).
  { rewrite <- Hhandlers, Hfunc. apply list_elem_of_fmap. exists sp.
    split; [done|].
    apply Forall_app in Hvalid as [_ Hv]. by apply Forall_cons in Hv as [Hv _]. }
  assert (Hne1 : "config" ≠ "subparser") by discriminate.
  assert (Hne2 : "config" ≠ "func") by discriminate.
  destruct (ns0 !! "config") as [c|] eqn:Hcfg;
    [|intros Hcall; discriminate Hcall].
  destruct c; intros Hcall; apply (f_equal fst) in Hcall;
    cbn [fst] in Hcall; injection Hcall as <-;
    rewrite ?(lookup_insert_ne _ _ _ _ Hne1), ?(lookup_insert_ne _ _ _ _ Hne2);
    exact (conj Hname (conj Hfunc Hin)).
Qed.

End facade_commands.

Lemma parse_args_subcommand_witness :
  let self := mkArguments ["backtesting"] None
                (@loaded_parser sample_externals_commands "bot") [SchemaBuilt] in
  ∃ sp ns self',
    @recognise sample_externals_commands (parser self) (args self) = Ok [Sub sp]
    ∧ @parse_args sample_externals_commands self = (Ok ns, self')
    ∧ ns !! "subparser" = Some (VStr "backtesting")
    ∧ ns !! "func" = Some (VFunc "backtesting.start").
Proof.
  intros self.
  assert (Hp : parser self = @loaded_parser sample_externals_commands "bot")
    by (subst self; cbn [parser]; reflexivity).
  assert (Hocc : ∃ sp,
    @recognise sample_externals_commands (parser self) (args self) = Ok [Sub sp]
    ∧ registered_subparsers (parser self) !! 0 = Some sp
    ∧ sub_name sp = "backtesting"
    ∧ assoc "func" (sub_defaults sp) = Some (VFunc "backtesting.start")).
  { eexists. split; [vm_compute; reflexivity|].
    split; [vm_compute; reflexivity|].
    split; vm_compute; reflexivity. }
  destruct Hocc as (sp & Hrec & Hsp & Hname & Hh).
  assert (Hok : match (@parse_args sample_externals_commands self).1 with
                | Ok _ => True
                | Raise _ => False
                end) by (vm_compute; exact I).
  destruct (@parse_args sample_externals_commands self)
    as [[ns|e] self'] eqn:Hcall; cbn [fst] in Hok; [|destruct Hok].
  exists sp, ns, self'. split; [exact Hrec|]. split; [reflexivity|].
  assert (Hvalid : Forall (valid_occurrence (parser self)) ([] ++ Sub sp :: [])).
  { constructor; [|constructor].
    apply list_elem_of_lookup. exists 0. exact Hsp. }
  destruct (@parse_args_subcommand sample_externals_commands self "bot"
              [] [] sp ns self' Hp Hrec Hvalid (Forall_nil_2 _) (Forall_nil_2 _)
              Hcall) as (H1 & H2 & _).
  split; [rewrite H1, Hname; reflexivity | rewrite H2; exact Hh].
Defined.
